(** * pytubefix command-line front-end (src/pytubefix/cli.py)

    A shallow embedding of the stream-selection, file-name allocation,
    download orchestration and progress rendering code of [cli.py], and the
    properties of its specification.

    Python [str] values are Rocq strings (UTF-8 bytes), Python [int] values
    are [Z], [None]-able values are [option]s.  Effects (standard output,
    the file system, stream transfers, the external muxer) are threaded
    through a small state-and-exception monad. *)

From Stdlib Require Import ZArith Lia Ascii String List Bool Sorted.
From Stdlib Require Import Floats.SpecFloat.
From Stdlib Require Import Reals Lra Psatz.
From stdpp Require Import base decidable option list strings pretty gmap.

Local Open Scope string_scope.
Local Open Scope Z_scope.

(** ** Streams and the catalog *)

(** The attributes of the client library's [Stream] objects that [cli.py]
    reads. *)
Record Stream := mkStream {
  itag : Z;
  subtype : string;
  is_progressive : bool;
  resolution : option string;   (* "720p", None for audio tracks *)
  abr : option string;          (* "128kbps", None for video-only tracks *)
  filesize : Z;
  default_filename : string
}.

#[global] Instance Stream_eq_dec : EqDecision Stream.
Proof. solve_decision. Defined.

(** A video as [YouTube(url)] presents it: a title and the ordered catalog
    [yt.streams]. *)
Record Video := mkVideo {
  title : string;
  streams : list Stream
}.

(** The exceptions the embedded code can raise. *)
Inductive exn :=
  | AttributeError      (* attribute access on None *)
  | ZeroDivisionError
  | OverflowError
  | ValueError
  | OutOfFuel.          (* a loop of the model hit its bound; not a Python exception *)

#[global] Instance exn_eq_dec : EqDecision exn.
Proof. solve_decision. Defined.

(** ** The catalog query interface *)

Module Query.

(** Keyword arguments of [StreamQuery.filter] that [cli.py] passes. *)
Record criteria := mkCriteria {
  c_progressive : option bool;
  c_subtype : option string;
  c_resolution : option string
}.

Definition any : criteria := mkCriteria None None None.

Definition opt_test {A} (t : A -> bool) (o : option A) : bool :=
  match o with None => true | Some a => t a end.

Definition matches (c : criteria) (s : Stream) : bool :=
  opt_test (fun p => Bool.eqb (is_progressive s) p) (c_progressive c)
  && opt_test (fun t => String.eqb (subtype s) t) (c_subtype c)
  && opt_test (fun r => bool_decide (resolution s = Some r)) (c_resolution c).

(** Modelled from the spec: [StreamQuery.filter] of the client library (not
    under src/).  The streams of the catalog that satisfy every given
    criterion, in the catalog's native ordering; [progressive=False] keeps
    the streams of non-progressive kind. *)
Definition filter (c : criteria) (q : list Stream) : list Stream :=
  List.filter (matches c) q.

Definition is_digit (a : ascii) : bool :=
  let n := nat_of_ascii a in (48 <=? n)%nat && (n <=? 57)%nat.

Fixpoint digits (s : string) : list N :=
  match s with
  | EmptyString => []
  | String a s' =>
      if is_digit a then (N_of_ascii a - 48)%N :: digits s' else digits s'
  end.

(** The number a resolution or bitrate string stands for: "720p" is 720,
    "128kbps" is 128. *)
Definition numeric (s : string) : N :=
  fold_left (fun acc d => (10 * acc + d)%N) (digits s) 0%N.

(** Stable insertion: [x] goes before the first element whose key is not
    smaller, so that among equal keys the catalog's order is kept. *)
Fixpoint insert_by (key : Stream -> N) (x : Stream) (l : list Stream) : list Stream :=
  match l with
  | [] => [x]
  | y :: l' =>
      if (key x <=? key y)%N then x :: y :: l' else y :: insert_by key x l'
  end.

Fixpoint sort_by (key : Stream -> N) (l : list Stream) : list Stream :=
  match l with
  | [] => []
  | x :: l' => insert_by key x (sort_by key l')
  end.

Definition key_of (attr : Stream -> option string) (s : Stream) : N :=
  match attr s with Some v => numeric v | None => 0%N end.

Definition has_attr (attr : Stream -> option string) (s : Stream) : bool :=
  match attr s with Some _ => true | None => false end.

(** Modelled from the spec: [StreamQuery.order_by] of the client library
    (not under src/).  The streams that have the attribute, in ascending
    numeric order of it; the sort is stable, so ties keep catalog order. *)
Definition order_by (attr : Stream -> option string) (q : list Stream) : list Stream :=
  sort_by (key_of attr) (List.filter (has_attr attr) q).

(** Modelled from the spec: [StreamQuery.first] and [StreamQuery.last] of the
    client library (not under src/): the first and the last stream of the
    query, [None] when it is empty (lines 141 and 201 of cli.py test the
    result against [None]). *)
Definition first (q : list Stream) : option Stream := head q.
Definition last (q : list Stream) : option Stream := list.last q.

(** Modelled from the spec: [StreamQuery.get_by_itag] of the client library
    (not under src/): exact match on the identifier, [None] if absent. *)
Definition get_by_itag (i : Z) (q : list Stream) : option Stream :=
  List.find (fun s => (itag s =? i)%Z) q.

End Query.

(** ** Floating-point numbers *)

Module Float.

(** Python floats are IEEE 754 binary64 numbers: the Standard Library's
    executable [spec_float] model at precision 53 and maximal exponent 1024,
    rounding to nearest, ties to even. *)
Definition prec : Z := 53.
Definition emax : Z := 1024.
Definition float := spec_float.

(** The binary64 number nearest to an integer. *)
Definition of_Z (z : Z) : float := binary_normalize prec emax z 0 false.

(** [float(z)], and the conversion of an [int] operand of a float
    operation: integers beyond the float range raise. *)
Definition of_int (z : Z) : exn + float :=
  match of_Z z with
  | S754_infinity _ => inl OverflowError
  | f => inr f
  end.

(** The binary64 number nearest to the fraction [num / den]. *)
Definition nearest (num : Z) (den : positive) : float :=
  match num with
  | Z0 => S754_zero false
  | Zpos n => SFdiv prec emax (S754_finite false n 0) (S754_finite false den 0)
  | Zneg n => SFdiv prec emax (S754_finite true n 0) (S754_finite false den 0)
  end.

(** The value of the float literal [d]e[e]: [0.55] is [of_decimal 55 (-2)]. *)
Definition of_decimal (d e : Z) : float :=
  if 0 <=? e then of_Z (d * 10 ^ e) else nearest d (Z.to_pos (10 ^ (- e))).

(** [x == 0.0]. *)
Definition is_zero (x : float) : bool :=
  match x with S754_zero _ => true | _ => false end.

(** [x * y] and [x / y] on floats; dividing by zero raises. *)
Definition mul (x y : float) : float := SFmul prec emax x y.

Definition div (x y : float) : exn + float :=
  if is_zero y then inl ZeroDivisionError else inr (SFdiv prec emax x y).

(** The exact value [m * 2^e] of a finite float as a fraction. *)
Definition exact (m : positive) (e : Z) : Z * Z :=
  if 0 <=? e then (Zpos m * 2 ^ e, 1) else (Zpos m, 2 ^ (- e)).

(** The sign bit applied to a magnitude. *)
Definition sgn (s : bool) (z : Z) : Z := if s then - z else z.

(** [int(x)]: truncation towards zero. *)
Definition trunc (x : float) : exn + Z :=
  match x with
  | S754_zero _ => inr 0
  | S754_infinity _ => inl OverflowError
  | S754_nan => inl ValueError
  | S754_finite s m e => let '(n, d) := exact m e in inr (sgn s (n / d))
  end.

(** The integer nearest to [n / d] ([0 <= n], [0 < d]), ties to even. *)
Definition half_even (n d : Z) : Z :=
  let q := n / d in
  match (2 * (n mod d) ?= d) with
  | Lt => q
  | Gt => q + 1
  | Eq => if Z.even q then q else q + 1
  end.

(** [round(x)]: the nearest integer, ties to even. *)
Definition round (x : float) : exn + Z :=
  match x with
  | S754_zero _ => inr 0
  | S754_infinity _ => inl OverflowError
  | S754_nan => inl ValueError
  | S754_finite s m e => let '(n, d) := exact m e in inr (sgn s (half_even n d))
  end.

(** [round(x, 1)]: the exact value of [x] is rounded to one decimal place,
    ties to even, and the float nearest to that decimal is returned;
    infinities and NaN round to themselves. *)
Definition round1 (x : float) : float :=
  match x with
  | S754_finite s m e =>
      let '(n, d) := exact m e in
      match half_even (10 * n) d with
      | Z0 => S754_zero s
      | k => nearest (sgn s k) 10
      end
  | _ => x
  end.

(** The number of decimal digits of a positive integer. *)
Definition ndigits10 (n : Z) : Z := Z.of_nat (String.length (pretty (Z.to_N n))).

(** The position of the decimal point of [n / d]:
    [10^(decpt - 1) <= n / d < 10^decpt]. *)
Definition decpt (n d : Z) : Z :=
  if d <=? n then ndigits10 (n / d)
  else let c := ndigits10 (d / n) in
       if n * 10 ^ (c - 1) =? d then 2 - c else 1 - c.

(** [floor (n / d * 10^p)]. *)
Definition scaled_floor (n d p : Z) : Z :=
  if 0 <=? p then (n * 10 ^ p) / d else n / (d * 10 ^ (- p)).

(** The decimal [c * 10^(-p)] reads back as [x], signs apart. *)
Definition roundtrips (x : float) (c p : Z) : bool :=
  match x, of_decimal c (- p) with
  | S754_finite _ m e, S754_finite _ m' e' => (Zpos m =? Zpos m') && (e =? e')
  | _, _ => false
  end.

(** [lo] is closer to [n / d * 10^p] than [lo + 1], ties to the even one. *)
Definition closer_lo (n d p lo : Z) : bool :=
  let a := if 0 <=? p then n * 10 ^ p else n in
  let b := if 0 <=? p then d else d * 10 ^ (- p) in
  match (2 * (a - lo * b) ?= b) with
  | Lt => true
  | Gt => false
  | Eq => Z.even lo
  end.

(** The shortest decimal, from [k] significant digits on, that reads back as
    [x]: of the two neighbours of the exact value, the closer one that does.
    Seventeen digits always do. *)
Fixpoint shortest (fuel : nat) (x : float) (n d dp k : Z) : Z * Z :=
  let p := k - dp in
  let lo := scaled_floor n d p in
  let hi := lo + 1 in
  match fuel with
  | O => (lo, p)
  | S fuel' =>
      let rl := roundtrips x lo p && (0 <? lo) in
      let rh := roundtrips x hi p in
      if rl && rh then (if closer_lo n d p lo then (lo, p) else (hi, p))
      else if rl then (lo, p)
      else if rh then (hi, p)
      else shortest fuel' x n d dp (k + 1)
  end.

(** Trailing zeros dropped from the digits [c] of [c * 10^(-p)]. *)
Fixpoint strip0 (fuel : nat) (c p : Z) : Z * Z :=
  match fuel with
  | O => (c, p)
  | S fuel' => if (c mod 10 =? 0) && negb (c =? 0) then strip0 fuel' (c / 10) (p - 1) else (c, p)
  end.

(** [n] zeros, and an exponent padded to two digits. *)
Definition zeros (n : Z) : string := String.concat "" (replicate (Z.to_nat n) "0").

Definition pad2 (s : string) : string :=
  if (String.length s <? 2)%nat then "0" +:+ s else s.

(** The digits [ds] laid out with the decimal point after [dp] digits: in
    exponent notation when [dp] is below -3 or above 16, otherwise in
    positional notation with at least one digit after the point. *)
Definition fmt_digits (ds : string) (dp : Z) : string :=
  let n := Z.of_nat (String.length ds) in
  if (dp <=? -4) || (16 <? dp) then
    let mant := match ds with
                | String a EmptyString => ds
                | String a rest => String a ("." +:+ rest)
                | EmptyString => ds
                end in
    let ex := dp - 1 in
    mant +:+ "e" +:+ (if ex <? 0 then "-" else "+") +:+ pad2 (pretty (Z.abs_N ex))
  else if dp <=? 0 then "0." +:+ zeros (- dp) +:+ ds
  else if n <=? dp then ds +:+ zeros (dp - n) +:+ ".0"
  else substring 0 (Z.to_nat dp) ds +:+ "." +:+ substring (Z.to_nat dp) (Z.to_nat (n - dp)) ds.

(** [repr(x)], which an f-string uses for a float: the shortest decimal
    that reads back as [x]. *)
Definition repr (x : float) : string :=
  match x with
  | S754_zero s => if s then "-0.0" else "0.0"
  | S754_infinity s => if s then "-inf" else "inf"
  | S754_nan => "nan"
  | S754_finite s m e =>
      let '(n, d) := exact m e in
      let dp := decpt n d in
      let '(c, p) := shortest 17 x n d dp 1 in
      let '(c', p') := strip0 20 c p in
      let ds := pretty (Z.to_N c') in
      (if s then "-" else "") +:+ fmt_digits ds (Z.of_nat (String.length ds) - p')
  end.



End Float.

(** ** Effects: standard output, the file system, transfers, the muxer *)

Inductive event :=
  | Stdout (text : string)                 (* text written to sys.stdout *)
  | Transfer (s : Stream) (path : string)  (* stream.download wrote [path] *)
  | Subprocess (cmd : list string).        (* subprocess.run(cmd) *)

#[global] Instance event_eq_dec : EqDecision event.
Proof. solve_decision. Defined.

(** The file system is the set of existing paths; [out] is the trace of
    observable actions, oldest first. *)
Record world := mkWorld {
  fs : gset string;
  out : list event
}.

(** A computation either returns a value or raises, and leaves a world. *)
Definition M (A : Type) : Type := world -> (exn + A) * world.

Definition ret {A} (a : A) : M A := fun w => (inr a, w).

Definition bind {A B} (m : M A) (k : A -> M B) : M B :=
  fun w =>
    match m w with
    | (inl e, w') => (inl e, w')
    | (inr a, w') => k a w'
    end.

Definition raise {A} (e : exn) : M A := fun w => (inl e, w).

Definition emit (e : event) : M unit :=
  fun w => (inr tt, mkWorld (fs w) (out w ++ [e])).

Definition get_fs : M (gset string) := fun w => (inr (fs w), w).

Definition create_file (p : string) : M unit :=
  fun w => (inr tt, mkWorld ({[ p ]} ∪ fs w) (out w)).

Notation "x <- m ;; k" := (bind m (fun x => k))
  (at level 100, m at next level, right associativity).
Notation "m ;;; k" := (bind m (fun _ => k))
  (at level 100, right associativity).

(** [print(x)] writes [x] and a newline. *)
Definition print (x : string) : M unit := emit (Stdout (x +:+ "
")).

(** [sys.stdout.write(x)]. *)
Definition stdout_write (x : string) : M unit := emit (Stdout x).

(** A pure result, or the exception it stands for, as a computation. *)
Definition lift {A} (r : exn + A) : M A :=
  match r with
  | inl e => raise e
  | inr a => ret a
  end.

(** What a [None]-able object yields on attribute access. *)
Definition attr_of {A B} (o : option A) (f : A -> M B) : M B :=
  match o with
  | Some a => f a
  | None => raise AttributeError
  end.

(** The transfers of a trace, in order. *)
Definition transfers (tr : list event) : list (Stream * string) :=
  omap (fun e => match e with Transfer s p => Some (s, p) | _ => None end) tr.

(** ** The environment of a run *)

Record Env := mkEnv {
  cwd : string;                                (* os.getcwd() *)
  YouTube : string -> Video;                   (* YouTube(url) *)
  Playlist : string -> list Video;             (* Playlist(url).videos *)
  get_highest_resolution : list Stream -> option Stream;
  get_audio_only : list Stream -> option Stream;
  terminal_columns : Z                         (* shutil.get_terminal_size().columns *)
}.

(** Truthiness of a [str]: the empty string is false. *)
Definition truthy (s : string) : bool :=
  match s with EmptyString => false | _ => true end.

(** [a or b] on an optional string. *)
Definition str_or (a : option string) (b : string) : string :=
  match a with
  | Some s => if truthy s then s else b
  | None => b
  end.

(** [s.endswith("/")] and [s.startswith("/")]. *)
Fixpoint ends_with_sep (s : string) : bool :=
  match s with
  | EmptyString => false
  | String a EmptyString => Ascii.eqb a "/"
  | String _ s' => ends_with_sep s'
  end.

Definition starts_with_sep (s : string) : bool :=
  match s with
  | String a _ => Ascii.eqb a "/"
  | EmptyString => false
  end.

(** [os.path.join(a, p)] (posixpath) for two components. *)
Definition os_path_join (a p : string) : string :=
  if starts_with_sep p then p
  else if negb (truthy a) || ends_with_sep a then a +:+ p
  else a +:+ "/" +:+ p.

(** [os.path.exists]. *)
Definition os_path_exists (p : string) (d : gset string) : bool :=
  bool_decide (p ∈ d).

(** Python's [str(x)] of a [None]-able string inside an f-string. *)
Definition fmt_opt (o : option string) : string :=
  match o with Some s => s | None => "None" end.

(** ** The progress renderer *)

(** [s * n] on a string: [n] copies of [s], none when [n] is negative. *)
Definition str_repeat (s : string) (n : Z) : string :=
  String.concat "" (replicate (Z.to_nat n) s).

(** Sequencing of pure computations that may raise. *)
Definition ebind {A B} (r : exn + A) (k : A -> exn + B) : exn + B :=
  match r with
  | inl e => inl e
  | inr a => k a
  end.

Notation "x <-- r ;; k" := (ebind r (fun x => k))
  (at level 100, r at next level, right associativity).

(** Line 66: [max_width = int(columns * scale)]. *)
Definition bar_width (columns : Z) (scale : Float.float) : exn + Z :=
  c <-- Float.of_int columns ;;
  Float.trunc (Float.mul c scale).

(** Line 68: [filled = int(round(max_width * bytes_received / float(filesize)))]. *)
Definition bar_filled (max_width bytes_received filesize : Z) : exn + Z :=
  f <-- Float.of_int filesize ;;
  p <-- Float.of_int (max_width * bytes_received) ;;
  q <-- Float.div p f ;;
  Float.round q.

(** Line 71: [percent = round(100.0 * bytes_received / float(filesize), 1)]. *)
Definition bar_percent (bytes_received filesize : Z) : exn + Float.float :=
  r <-- Float.of_int bytes_received ;;
  f <-- Float.of_int filesize ;;
  q <-- Float.div (Float.mul (Float.of_decimal 100 0) r) f ;;
  inr (Float.round1 q).

(** The text [display_progress_bar] writes, lines 66-72. *)
Definition progress_text (columns bytes_received filesize : Z) (ch : string)
    (scale : Float.float) : exn + string :=
  max_width <-- bar_width columns scale ;;
  filled <-- bar_filled max_width bytes_received filesize ;;
  let remaining := max_width - filled in
  let progress_bar := str_repeat ch filled +:+ str_repeat " " remaining in
  percent <-- bar_percent bytes_received filesize ;;
  inr (" ↳ |" +:+ progress_bar +:+ "| " +:+ Float.repr percent +:+ "%" +:+ String "013" "").

(** The default arguments [ch="█"] and [scale=0.55]. *)
Definition default_ch : string := "█".
Definition default_scale : Float.float := Float.of_decimal 55 (-2).

Section Cli.

Variable E : Env.

(** Modelled from the spec: [Stream.get_file_path] of the client library
    (not under src/).  The download target (a directory and an optional
    explicit file name) resolved to a concrete path: the directory
    ([output_path], else the working directory) joined with the explicit
    file name, used as it is given, or with the stream's default file name
    when no name is given. *)
Definition get_file_path (s : Stream) (filename output_path : option string) : string :=
  os_path_join (str_or output_path (cwd E)) (str_or filename (default_filename s)).

(** Modelled from the spec: [Stream.exists_at_path] of the client library
    (not under src/): the resolved path already exists on disk. *)
Definition exists_at_path (s : Stream) (file_path : string) : M bool :=
  d <- get_fs ;; ret (os_path_exists file_path d).

(** Modelled from the spec: [Stream.download] of the client library (not
    under src/): one transfer of the stream to its resolved path, which
    exists afterwards.  The progress callbacks the transfer fires are part
    of the transfer. *)
Definition download (s : Stream) (output_path filename : option string) : M unit :=
  let p := get_file_path s filename output_path in
  emit (Transfer s p) ;;; create_file p.

(** [_download], lines 81-90. *)
Definition _download (stream : Stream) (target filename : option string) : M unit :=
  let filesize_megabytes := filesize stream / 1048576 in
  print (str_or filename (default_filename stream) +:+ " | "
         +:+ pretty filesize_megabytes +:+ " MB") ;;;
  let file_path := get_file_path stream filename target in
  ex <- exists_at_path stream file_path ;;
  if ex then
    print ("Already downloaded at:
" +:+ file_path)
  else
    download stream target filename ;;;
    stdout_write "
".

(** The candidate name and path of [_unique_name] for a counter value. *)
Definition file_name (base media_type : string) (counter : nat) : string :=
  base +:+ "_" +:+ media_type +:+ "_" +:+ pretty counter.

Definition file_path (base subtype media_type target : string) (counter : nat) : string :=
  os_path_join target (file_name base media_type counter +:+ "." +:+ subtype).

(** The [while True] loop of [_unique_name], lines 107-112, run for at most
    [fuel] iterations from [counter]. *)
Fixpoint unique_name_loop (fuel : nat) (base subtype media_type target : string)
    (d : gset string) (counter : nat) : option string :=
  match fuel with
  | O => None
  | S fuel' =>
      if negb (os_path_exists (file_path base subtype media_type target counter) d)
      then Some (file_name base media_type counter)
      else unique_name_loop fuel' base subtype media_type target d (S counter)
  end.

(** [_unique_name], lines 92-112, against the directory contents [d].  A
    directory of [n] paths stops the loop within [n + 1] iterations
    ([unique_name_loop_total] below). *)
Definition unique_name (base subtype media_type target : string)
    (d : gset string) : option string :=
  unique_name_loop (S (size d)) base subtype media_type target d 0.

Definition _unique_name (base subtype media_type target : string) : M string :=
  d <- get_fs ;;
  match unique_name base subtype media_type target d with
  | Some n => ret n
  | None => raise OutOfFuel   (* never: [unique_name_loop_total] below *)
  end.

(** ** Selection and orchestration *)

Definition non_progressive : Query.criteria :=
  Query.mkCriteria (Some false) None None.

Definition non_progressive_mp4 : Query.criteria :=
  Query.mkCriteria (Some false) (Some "mp4") None.

Definition non_progressive_at (r : string) : Query.criteria :=
  Query.mkCriteria (Some false) None (Some r).

Definition progressive : Query.criteria :=
  Query.mkCriteria (Some true) None None.

Definition at_resolution (r : string) : Query.criteria :=
  Query.mkCriteria None None (Some r).

(** The "best" branch of [ffmpeg_process], lines 132-137.  Reading
    [.resolution] of a [None] result of [last()] raises. *)
Definition best_video_stream (q : list Stream) : exn + option Stream :=
  let highest_quality_stream :=
    Query.last (Query.order_by resolution (Query.filter non_progressive q)) in
  let mp4_stream :=
    Query.last (Query.order_by resolution (Query.filter non_progressive_mp4 q)) in
  match highest_quality_stream, mp4_stream with
  | Some h, Some m =>
      if decide (resolution h = resolution m) then inr (Some m) else inr (Some h)
  | _, _ => inl AttributeError
  end.

(** The video stream of [ffmpeg_process], lines 131-139. *)
Definition ffmpeg_video_stream (q : list Stream) (res : option string)
    : exn + option Stream :=
  match res with
  | None => best_video_stream q
  | Some r =>
      if String.eqb r "best" then best_video_stream q
      else inr (Query.first (Query.filter (non_progressive_at r) q))
  end.

(** The audio stream of [ffmpeg_process], line 145. *)
Definition ffmpeg_audio_stream (q : list Stream) : option Stream :=
  Query.last (Query.order_by abr (Query.filter non_progressive q)).

(** [ffmpeg_process], lines 114-164. *)
Definition ffmpeg_process (url : string) (res target : option string) : M unit :=
  let yt := YouTube E url in
  let target := str_or target (cwd E) in
  video_stream <- lift (ffmpeg_video_stream (streams yt) res) ;;
  match video_stream with
  | None => print ("No streams found for resolution " +:+ fmt_opt res)
  | Some video_stream =>
      let audio_stream := ffmpeg_audio_stream (streams yt) in
      video_file_name <- _unique_name (title yt) "mp4" "video" target ;;
      audio_file_name <- _unique_name (title yt) "mp4" "audio" target ;;
      let video_path :=
        get_file_path video_stream (Some video_file_name) (Some target) in
      audio_path <- attr_of audio_stream (fun a =>
        ret (get_file_path a (Some audio_file_name) (Some target))) ;;
      d <- get_fs ;;
      if os_path_exists video_path d && os_path_exists audio_path d then
        print "Already downloaded both video and audio."
      else
        _download video_stream (Some target) (Some video_file_name) ;;;
        attr_of audio_stream (fun a =>
          _download a (Some target) (Some audio_file_name)) ;;;
        emit (Subprocess
          ["ffmpeg"; "-i"; video_path; "-i"; audio_path; "-c:v"; "copy";
           "-c:a"; "aac"; "-strict"; "experimental";
           target +:+ "/" +:+ title yt +:+ ".mp4"])
  end.

(** The stream of [download_by_resolution], line 180. *)
Definition by_resolution_stream (q : list Stream) (res : string) : option Stream :=
  Query.first (Query.filter (at_resolution res) q).

(** [download_by_resolution], lines 166-184. *)
Definition download_by_resolution (url res : string) (target : option string) : M unit :=
  print ("Downloading " +:+ res +:+ "...") ;;;
  let yt := YouTube E url in
  match by_resolution_stream (streams yt) res with
  | None => print ("No stream found for resolution " +:+ res)
  | Some stream => _download stream target None
  end.

(** The stream of [download_highest_resolution_progressive], line 200. *)
Definition highest_progressive_stream (q : list Stream) : option Stream :=
  Query.last (Query.order_by resolution (Query.filter progressive q)).

(** [download_highest_resolution_progressive], lines 186-204. *)
Definition download_highest_resolution_progressive (url : string)
    (res target : option string) : M unit :=
  print "Downloading highest resolution progressive stream..." ;;;
  let yt := YouTube E url in
  match highest_progressive_stream (streams yt) with
  | None => print "No progressive stream found."
  | Some stream => _download stream target None
  end.

(** [download_by_itag], lines 206-224. *)
Definition download_by_itag (url : string) (i : Z) (target : option string) : M unit :=
  let yt := YouTube E url in
  match Query.get_by_itag i (streams yt) with
  | None => print ("No stream found with itag " +:+ pretty i +:+ ".")
  | Some stream =>
      print ("Downloading stream with itag " +:+ pretty i +:+ "...") ;;;
      _download stream target None
  end.

(** [download_video] and [download_audio], lines 269-281. *)
Definition download_video (url : string) : M unit :=
  let yt := YouTube E url in
  print (title yt) ;;;
  attr_of (get_highest_resolution E (streams yt)) (fun ys => download ys None None).

Definition download_audio (url : string) : M unit :=
  let yt := YouTube E url in
  print (title yt) ;;;
  attr_of (get_audio_only E (streams yt)) (fun ys => download ys None None).

(** The [for video in pl.videos] loops of lines 283-293. *)
Fixpoint for_each {A} (l : list A) (body : A -> M unit) : M unit :=
  match l with
  | [] => ret tt
  | a :: l' => body a ;;; for_each l' body
  end.

Definition download_playlist_video (url : string) : M unit :=
  for_each (Playlist E url) (fun video =>
    attr_of (get_highest_resolution E (streams video)) (fun ys => download ys None None)).

Definition download_playlist_audio (url : string) : M unit :=
  for_each (Playlist E url) (fun video =>
    attr_of (get_audio_only E (streams video)) (fun ys => download ys None None)).

(** [display_progress_bar], lines 47-74. *)
Definition display_progress_bar (bytes_received filesize : Z) (ch : string)
    (scale : Float.float) : M unit :=
  text <- lift (progress_text (terminal_columns E) bytes_received filesize ch scale) ;;
  stdout_write text.

(** [on_progress], lines 76-79. *)
Definition on_progress (stream : Stream) (bytes_remaining : Z) : M unit :=
  let bytes_received := filesize stream - bytes_remaining in
  display_progress_bar bytes_received (filesize stream) default_ch default_scale.

(** The parsed arguments that [main] reads. *)
Record Args := mkArgs {
  a_url : option string;
  a_playlist : option string;
  a_audio : bool
}.

(** Truthiness of an optional argument: given and not empty; [arg_value]
    is its value then. *)
Definition is_set (o : option string) : bool :=
  match o with Some s => truthy s | None => false end.

Definition arg_value (o : option string) : string :=
  match o with Some s => s | None => "" end.

(** The URL branch of [main], lines 320-325. *)
Definition main_url (args : Args) : M unit :=
  if is_set (a_url args) then
    (if a_audio args then download_audio (arg_value (a_url args))
     else download_video (arg_value (a_url args))) ;;;
    print "URL processed successfully!
"
  else ret tt.

(** The playlist branch of [main], lines 328-333. *)
Definition main_playlist (args : Args) : M unit :=
  if is_set (a_playlist args) then
    (if a_audio args then download_playlist_audio (arg_value (a_playlist args))
     else print ("Downloading playlist: " +:+ arg_value (a_playlist args))) ;;;
    print "Playlist processed successfully!
"
  else ret tt.

(** [main], lines 296-333, after argument parsing. *)
Definition main (args : Args) : M unit :=
  main_url args ;;; main_playlist args.

End Cli.

(** ** Listings *)

(** The attributes of a caption track that [cli.py] reads. *)
Module Captions.

Record Caption := mkCaption {
  language_code : string;
  name : string
}.

End Captions.

(** [available_captions], lines 246-254. *)
Definition available_captions (captions : list Captions.Caption) : M unit :=
  print "Available captions:" ;;;
  for_each captions (fun caption =>
    print (" - " +:+ Captions.language_code caption +:+ ": " +:+ Captions.name caption)).

(** [display_streams], lines 256-267.  [str] is the text the client library
    gives for a stream inside an f-string. *)
Definition display_streams (E : Env) (str : Stream -> string) (url : string) : M unit :=
  let yt := YouTube E url in
  print ("Available streams for " +:+ title yt +:+ ":") ;;;
  for_each (streams yt) (fun stream => print (" - " +:+ str stream)).

(** ** Specification vocabulary *)

(** [s] sits in [q] at the last position among the streams that satisfy [P]
    and have the greatest key: the highest one, ties broken by catalog
    order, the last one winning. *)
Definition last_max_in (P : Stream -> bool) (key : Stream -> N)
    (q : list Stream) (s : Stream) : Prop :=
  exists i : nat, q !! i = Some s /\ P s = true /\
    forall (j : nat) (s' : Stream), q !! j = Some s' -> P s' = true ->
      (key s' <= key s)%N /\ ((i < j)%nat -> (key s' < key s)%N).

(** [s] is the first stream of [q], in its native ordering, that satisfies
    [P]. *)
Definition first_in (P : Stream -> bool) (q : list Stream) (s : Stream) : Prop :=
  exists i : nat, q !! i = Some s /\ P s = true /\
    forall (j : nat) (s' : Stream), (j < i)%nat -> q !! j = Some s' -> P s' = false.

(** No stream of [q] satisfies [P]. *)
Definition none_in (P : Stream -> bool) (q : list Stream) : Prop :=
  forall s : Stream, s ∈ q -> P s = false.

(** The last stream with the greatest key among those satisfying [P], by
    one pass from the end of the catalog. *)
Fixpoint argmax_last (P : Stream -> bool) (key : Stream -> N) (q : list Stream)
    : option Stream :=
  match q with
  | [] => None
  | x :: q' =>
      match argmax_last P key q' with
      | None => if P x then Some x else None
      | Some y => if P x && (key y <? key x)%N then Some x else Some y
      end
  end.

(** The predicates the selection policies filter by. *)
Definition adaptive_video (s : Stream) : bool :=
  negb (is_progressive s) && Query.has_attr resolution s.

Definition adaptive_mp4_video (s : Stream) : bool :=
  negb (is_progressive s) && String.eqb (subtype s) "mp4"
  && Query.has_attr resolution s.

Definition adaptive_audio (s : Stream) : bool :=
  negb (is_progressive s) && Query.has_attr abr s.

Definition progressive_video (s : Stream) : bool :=
  is_progressive s && Query.has_attr resolution s.

Definition adaptive_at (r : string) (s : Stream) : bool :=
  negb (is_progressive s) && bool_decide (resolution s = Some r).

Definition any_at (r : string) (s : Stream) : bool :=
  bool_decide (resolution s = Some r).

Definition res_key : Stream -> N := Query.key_of resolution.
Definition abr_key : Stream -> N := Query.key_of abr.

(** ** Sample catalogs and environments *)

Module Examples.

Definition s18 : Stream :=
  mkStream 18 "mp4" true (Some "360p") (Some "96kbps") 5242880 "clip.mp4".
Definition s22 : Stream :=
  mkStream 22 "mp4" true (Some "720p") (Some "192kbps") 20971520 "clip.mp4".
Definition v136 : Stream :=
  mkStream 136 "mp4" false (Some "720p") None 15728640 "clip.mp4".
Definition v137 : Stream :=
  mkStream 137 "mp4" false (Some "1080p") None 41943040 "clip.mp4".
Definition v248 : Stream :=
  mkStream 248 "webm" false (Some "1080p") None 36700160 "clip.webm".
Definition v313 : Stream :=
  mkStream 313 "webm" false (Some "2160p") None 209715200 "clip.webm".
Definition a140 : Stream :=
  mkStream 140 "mp4" false None (Some "128kbps") 3145728 "clip.mp4".
Definition a251 : Stream :=
  mkStream 251 "webm" false None (Some "160kbps") 4194304 "clip.webm".

(** The catalog of the spec's scenario for the best progressive stream. *)
Definition progressive_catalog : list Stream := [s18; s22].

(** A 720p progressive stream ahead of a 720p adaptive one. *)
Definition mixed_catalog : list Stream := [s22; v136; a140].

(** Two adaptive 1080p video streams, one mp4 and one not. *)
Definition tie_catalog : list Stream := [v136; v137; v248; a140; a251].

(** The highest adaptive stream is not mp4. *)
Definition webm_top_catalog : list Stream := [v137; v313; a140; a251].

(** An adaptive video stream and no mp4 one. *)
Definition webm_only_catalog : list Stream := [v248; a251].

(** An adaptive video stream and no stream with a bitrate. *)
Definition video_only_catalog : list Stream := [v137].

(** An mp4 video stream and an mp4 audio stream. *)
Definition mp4_catalog : list Stream := [v137; a140].

Definition env_of (q : list Stream) (columns : Z) : Env :=
  mkEnv "/home/user"
    (fun _ => mkVideo "clip" q)
    (fun _ => [mkVideo "clip" q])
    highest_progressive_stream
    ffmpeg_audio_stream
    columns.

Definition empty_world : world := mkWorld ∅ [].

End Examples.

(** ** Scenarios of the spec's testable properties *)

(** [n] allocations in sequence for the same (base, subtype, media kind),
    the file each allocated name stands for ([name.subtype] in the target
    directory) being created before the next call; the list of the names
    returned, in order. *)
Fixpoint allocate_n (n : nat) (base subtype media_type target : string)
    : M (list string) :=
  match n with
  | O => ret []
  | S n' =>
      name <- _unique_name base subtype media_type target ;;
      create_file (os_path_join target (name +:+ "." +:+ subtype)) ;;;
      rest <- allocate_n n' base subtype media_type target ;;
      ret (name :: rest)
  end.

(** [n] allocations in sequence with nothing created in between. *)
Fixpoint probe_n (n : nat) (base subtype media_type target : string)
    : M (list string) :=
  match n with
  | O => ret []
  | S n' =>
      name <- _unique_name base subtype media_type target ;;
      rest <- probe_n n' base subtype media_type target ;;
      ret (name :: rest)
  end.

(** The events a run adds to the trace, and its transfers. *)
Definition new_events {A} (m : M A) (w : world) : list event :=
  drop (length (out w)) (out (snd (m w))).

Definition new_transfers {A} (m : M A) (w : world) : list (Stream * string) :=
  transfers (new_events m w).

(** The transfer [_download] makes of stream [s] to path [p] against the
    directory contents [d]: none when [p] exists. *)
Definition missing (d : gset string) (s : Stream) (p : string)
    : list (Stream * string) :=
  if os_path_exists p d then [] else [(s, p)].

(** Running [m] twice from [w]: the first run returns normally and makes
    the transfers [first]; the second run returns normally, transfers
    nothing and ends on the report [report]. *)
Definition rerun_short_circuits (m : M unit) (first : list (Stream * string))
    (report : event) (w : world) : Prop :=
  exists w1 w2,
    m w = (inr tt, w1)
    /\ new_transfers m w = first
    /\ m w1 = (inr tt, w2)
    /\ new_transfers m w1 = []
    /\ list.last (out w2) = Some report.

(** The report of [ffmpeg_process] when both files exist. *)
Definition already_downloaded_both : event :=
  Stdout "Already downloaded both video and audio.
".

(** No dot occurs in [s]. *)
Fixpoint dot_free (s : string) : bool :=
  match s with
  | EmptyString => true
  | String a s' => negb (Ascii.eqb a ".") && dot_free s'
  end.

(** ** Further vocabulary *)

(** Ascending order of the keys, as [order_by] leaves a query. *)
Definition ascending (key : Stream -> N) (l : list Stream) : Prop :=
  StronglySorted (fun a b => (key a <= key b)%N) l.

(** The first line [_download] prints. *)
Definition download_header (s : Stream) (filename : option string) : event :=
  Stdout ((str_or filename (default_filename s) +:+ " | "
           +:+ pretty (filesize s / 1048576) +:+ " MB") +:+ "
").

(** The report of [_download] on a path that exists. *)
Definition already_downloaded (p : string) : event :=
  Stdout (("Already downloaded at:
" +:+ p) +:+ "
").

(** What [_download] adds to the trace against the directory contents [d]:
    the header, then the report when the resolved path exists, the transfer
    and a newline otherwise. *)
Definition download_trace (E : Env) (s : Stream) (target filename : option string)
    (d : gset string) : list event :=
  let p := get_file_path E s filename target in
  if os_path_exists p d
  then [download_header s filename; already_downloaded p]
  else [download_header s filename; Transfer s p; Stdout "
"].

(** What the playlist branch of [main] prints without [--audio]. *)
Definition playlist_lines (args : Args) : list event :=
  if is_set (a_playlist args) then
    [Stdout ("Downloading playlist: " +:+ arg_value (a_playlist args) +:+ "
");
     Stdout "Playlist processed successfully!

"]
  else [].



(** The float nearest to [k / 10]. *)
Definition tenths (k : Z) : Float.float :=
  match k with
  | 0 => S754_zero false
  | _ => Float.nearest k 10
  end.


(** The relative error of one rounding, [2^-52]. *)
Definition eps : R := powerRZ 2 (-52).


(** ** Vocabulary of the further properties *)

(** A printed line. *)
Definition line (x : string) : event := Stdout (x +:+ "
").

(** The path of a download without target directory and file name, and the
    transfer to it. *)
Definition default_path (E : Env) (s : Stream) : string :=
  get_file_path E s None None.

Definition transfer_of (E : Env) (s : Stream) : event :=
  Transfer s (default_path E s).


(** The selection and the playlist routine that go with [--audio]. *)
Definition picker (E : Env) (audio : bool) : list Stream -> option Stream :=
  if audio then get_audio_only E else get_highest_resolution E.

Definition download_playlist (E : Env) (audio : bool) : string -> M unit :=
  if audio then download_playlist_audio E else download_playlist_video E.

(** The lines of the two listings. *)
Definition caption_line (c : Captions.Caption) : event :=
  line (" - " +:+ Captions.language_code c +:+ ": " +:+ Captions.name c).

Definition stream_line (str : Stream -> string) (s : Stream) : event :=
  line (" - " +:+ str s).

(** A progress line with the default fill character. *)
Definition progress_line (max_width filled : Z) (percent : string) : string :=
  " ↳ |" +:+ (str_repeat default_ch filled +:+ str_repeat " " (max_width - filled))
  +:+ "| " +:+ percent +:+ "%" +:+ String "013" "".

(** Sample playlists. *)
Module Samples.

Definition three_videos : list Video :=
  [mkVideo "one" Examples.progressive_catalog;
   mkVideo "two" [];
   mkVideo "three" Examples.progressive_catalog].



Definition playlist_env (q : list Stream) (vs : list Video) : Env :=
  mkEnv "/home/user"
    (fun _ => mkVideo "clip" q)
    (fun _ => vs)
    highest_progressive_stream
    ffmpeg_audio_stream
    80.


End Samples.

(** * Properties *)

(** ** The model on sample inputs *)

Example numeric_resolution : Query.numeric "720p" = 720%N.
Proof. reflexivity. Qed.

Example numeric_bitrate : Query.numeric "128kbps" = 128%N.
Proof. reflexivity. Qed.

Example order_by_is_stable :
  itag <$> Query.order_by resolution Examples.tie_catalog = [136; 137; 248].
Proof. reflexivity. Qed.

Example os_path_join_plain : os_path_join "/dl" "clip.mp4" = "/dl/clip.mp4".
Proof. reflexivity. Qed.

Example os_path_join_trailing_sep : os_path_join "/dl/" "clip.mp4" = "/dl/clip.mp4".
Proof. reflexivity. Qed.

Example os_path_join_absolute : os_path_join "/dl" "/tmp/clip.mp4" = "/tmp/clip.mp4".
Proof. reflexivity. Qed.

Example file_name_counter : file_name "clip" "video" 12 = "clip_video_12".
Proof. reflexivity. Qed.

Example float_repr_samples :
  Float.repr (Float.of_decimal 1 (-1)) = "0.1"
  /\ Float.repr (SFadd Float.prec Float.emax (Float.of_decimal 1 (-1))
                   (Float.of_decimal 2 (-1))) = "0.30000000000000004"
  /\ Float.repr (Float.nearest 1 3) = "0.3333333333333333"
  /\ Float.repr (Float.of_decimal 1 15) = "1000000000000000.0"
  /\ Float.repr (Float.of_decimal 1 16) = "1e+16"
  /\ Float.repr (Float.of_decimal 15 (-6)) = "1.5e-05"
  /\ Float.repr (Float.of_decimal 5 (-324)) = "5e-324"
  /\ Float.repr (Float.of_decimal 17976931348623157 292) = "1.7976931348623157e+308".
Proof. vm_compute. repeat split; reflexivity. Qed.

Example float_round_samples :
  Float.round (Float.of_decimal 5 (-1)) = inr 0
  /\ Float.round (Float.of_decimal 15 (-1)) = inr 2
  /\ Float.round (Float.of_decimal 25 (-1)) = inr 2
  /\ Float.round (Float.of_decimal (-25) (-1)) = inr (-2)
  /\ Float.trunc (Float.of_decimal (-29) (-1)) = inr (-2)
  /\ Float.repr (Float.round1 (Float.of_decimal 2675 (-3))) = "2.7"
  /\ Float.repr (Float.round1 (Float.of_decimal 25 (-2))) = "0.2"
  /\ Float.repr (Float.round1 (Float.of_decimal 35 (-2))) = "0.3".
Proof. vm_compute. repeat split; reflexivity. Qed.

Example bar_width_default : bar_width 80 default_scale = inr 44.
Proof. vm_compute. reflexivity. Qed.

Example progress_text_third :
  progress_text 20 1 3 "#" default_scale
  = inr (" ↳ |####       | 33.3%" +:+ String "013" "").
Proof. vm_compute. reflexivity. Qed.

Example best_video_prefers_overall_highest :
  best_video_stream Examples.webm_top_catalog = inr (Some Examples.v313).
Proof. reflexivity. Qed.

(** ** The query interface *)

Section QueryFacts.

Variable key : Stream -> N.

Lemma insert_by_elem x y l :
  y ∈ Query.insert_by key x l -> y = x \/ y ∈ l.
Proof.
  induction l as [|z l IH]; simpl.
  - intros H. apply list_elem_of_singleton in H. by left.
  - destruct (key x <=? key z)%N.
    + intros H. apply elem_of_cons in H. destruct H; [by left | by right].
    + intros H. apply elem_of_cons in H as [->|H].
      * right. apply elem_of_cons. by left.
      * destruct (IH H) as [->|H']; [by left|]. right. apply elem_of_cons. by right.
Qed.

Lemma insert_by_ascending x l :
  ascending key l -> ascending key (Query.insert_by key x l).
Proof.
  unfold ascending. induction 1 as [|z l Hl IH Hz]; simpl.
  - repeat constructor.
  - destruct (key x <=? key z)%N eqn:Hc.
    + apply N.leb_le in Hc. constructor.
      * by constructor.
      * constructor; [done|]. eapply Forall_impl; [exact Hz|]. simpl. lia.
    + apply N.leb_gt in Hc. constructor; [done|].
      apply Forall_forall. intros y Hy.
      destruct (insert_by_elem _ _ _ Hy) as [->|Hy']; [lia|].
      rewrite Forall_forall in Hz. by apply Hz.
Qed.

Lemma sort_by_ascending l : ascending key (Query.sort_by key l).
Proof.
  induction l as [|x l IH]; simpl; [constructor|].
  by apply insert_by_ascending.
Qed.

Lemma insert_by_perm x l : Query.insert_by key x l ≡ₚ x :: l.
Proof.
  induction l as [|z l IH]; simpl; [done|].
  destruct (key x <=? key z)%N; [done|].
  rewrite IH. apply Permutation_swap.
Qed.

Lemma sort_by_perm l : Query.sort_by key l ≡ₚ l.
Proof.
  induction l as [|x l IH]; simpl; [done|].
  by rewrite insert_by_perm, IH.
Qed.

Lemma ascending_last_ge z l y :
  ascending key (z :: l) -> list.last (z :: l) = Some y -> (key z <= key y)%N.
Proof.
  intros Hs Hl. inversion Hs as [|? ? _ Hz]; subst.
  destruct l as [|a l]; simpl in Hl.
  - injection Hl as <-. lia.
  - rewrite Forall_forall in Hz. apply Hz.
    apply (last_Some_elem_of (a :: l)). exact Hl.
Qed.

Lemma insert_by_last x l :
  ascending key l ->
  list.last (Query.insert_by key x l) =
    match list.last l with
    | None => Some x
    | Some y => if (key y <? key x)%N then Some x else Some y
    end.
Proof.
  induction l as [|z l IH]; intros Hs; [done|].
  simpl Query.insert_by.
  destruct (key x <=? key z)%N eqn:Hc.
  - apply N.leb_le in Hc.
    change (list.last (x :: z :: l)) with (list.last (z :: l)).
    destruct (list.last (z :: l)) as [y|] eqn:Hl; [|by apply last_None in Hl].
    pose proof (ascending_last_ge _ _ _ Hs Hl).
    destruct (N.ltb_spec (key y) (key x)); [lia|done].
  - apply N.leb_gt in Hc.
    assert (Hs' : ascending key l) by (by inversion Hs).
    specialize (IH Hs').
    destruct l as [|a l].
    + simpl. destruct (N.ltb_spec (key z) (key x)); [done|lia].
    + change (list.last (z :: a :: l)) with (list.last (a :: l)).
      rewrite <- IH. simpl Query.insert_by.
      destruct (key x <=? key a)%N; done.
Qed.

Lemma sort_by_last l :
  Query.last (Query.sort_by key l) = argmax_last (fun _ => true) key l.
Proof.
  unfold Query.last. induction l as [|x l IH]; [done|].
  simpl. rewrite insert_by_last by apply sort_by_ascending.
  rewrite IH. reflexivity.
Qed.

Lemma argmax_last_filter (P Q : Stream -> bool) l :
  argmax_last P key (List.filter Q l) = argmax_last (fun s => Q s && P s) key l.
Proof.
  induction l as [|x l IH]; [done|].
  simpl. destruct (Q x); simpl; rewrite IH; [done|].
  by destruct (argmax_last _ key l).
Qed.

Lemma argmax_last_ext (P Q : Stream -> bool) l :
  (forall s, P s = Q s) -> argmax_last P key l = argmax_last Q key l.
Proof.
  intros H. induction l as [|x l IH]; [done|].
  simpl. by rewrite IH, H.
Qed.

Lemma argmax_last_spec (P : Stream -> bool) q :
  match argmax_last P key q with
  | Some s => last_max_in P key q s
  | None => none_in P q
  end.
Proof.
  induction q as [|x q IH]; simpl.
  - intros s Hs. by apply elem_of_nil in Hs.
  - destruct (argmax_last P key q) as [y|].
    + destruct IH as (i & Hi & HP & Hmax).
      destruct (P x) eqn:HPx; simpl.
      * destruct (N.ltb_spec (key y) (key x)) as [Hlt|Hge].
        -- exists 0%nat. split; [done|]. split; [done|].
           intros [|j] s' Hj HPs'; simpl in Hj.
           ++ injection Hj as <-. split; [lia|lia].
           ++ destruct (Hmax j s' Hj HPs') as [Hle _]. split; [lia|]. intros _. lia.
        -- exists (S i). split; [done|]. split; [done|].
           intros [|j] s' Hj HPs'; simpl in Hj.
           ++ injection Hj as <-. split; [lia|lia].
           ++ destruct (Hmax j s' Hj HPs') as [Hle Hlt]. split; [done|].
              intros Hij. apply Hlt. lia.
      * exists (S i). split; [done|]. split; [done|].
        intros [|j] s' Hj HPs'; simpl in Hj.
        -- injection Hj as <-. congruence.
        -- destruct (Hmax j s' Hj HPs') as [Hle Hlt]. split; [done|].
           intros Hij. apply Hlt. lia.
    + destruct (P x) eqn:HPx.
      * exists 0%nat. split; [done|]. split; [done|].
        intros [|j] s' Hj HPs'; simpl in Hj.
        -- injection Hj as <-. split; lia.
        -- exfalso. apply list_elem_of_lookup_2 in Hj. apply IH in Hj. congruence.
      * intros s Hs. apply elem_of_cons in Hs as [->|Hs]; [done|by apply IH].
Qed.

End QueryFacts.

(** Two streams that both are the last maximum are the same stream. *)
Lemma last_max_in_unique P key q s1 s2 :
  last_max_in P key q s1 -> last_max_in P key q s2 -> s1 = s2.
Proof.
  intros (i & Hi & HPi & Hmi) (j & Hj & HPj & Hmj).
  destruct (Hmi j s2 Hj HPj) as [H1 H1'].
  destruct (Hmj i s1 Hi HPi) as [H2 H2'].
  destruct (Nat.lt_trichotomy i j) as [Hlt|[->|Hgt]].
  - specialize (H1' Hlt). lia.
  - congruence.
  - specialize (H2' Hgt). lia.
Qed.

(** [filter(...).order_by(attr).last()] is the last maximum of the catalog. *)
Lemma select_last_spec (c : Query.criteria) (attr : Stream -> option string) q :
  Query.last (Query.order_by attr (Query.filter c q)) =
  argmax_last (fun s => Query.matches c s && Query.has_attr attr s)
    (Query.key_of attr) q.
Proof.
  unfold Query.order_by, Query.filter.
  rewrite sort_by_last, !argmax_last_filter.
  apply argmax_last_ext. intros s.
  by rewrite andb_true_r.
Qed.

Lemma first_filter_spec (P : Stream -> bool) q :
  match Query.first (List.filter P q) with
  | Some s => first_in P q s
  | None => none_in P q
  end.
Proof.
  unfold Query.first. induction q as [|x q IH]; simpl.
  - intros s Hs. by apply elem_of_nil in Hs.
  - destruct (P x) eqn:HPx; simpl.
    + exists 0%nat. repeat split; try done. intros j s' Hj. lia.
    + destruct (head (List.filter P q)) as [s|].
      * destruct IH as (i & Hi & HPs & Hbefore).
        exists (S i). repeat split; try done.
        intros [|j] s' Hj Hl; simpl in Hl.
        -- by injection Hl as <-.
        -- apply (Hbefore j); [lia|done].
      * intros s Hs. apply elem_of_cons in Hs as [->|Hs]; [done|by apply IH].
Qed.

Lemma none_in_argmax_last P key q :
  none_in P q -> argmax_last P key q = None.
Proof.
  intros Hn. pose proof (argmax_last_spec key P q) as H.
  destruct (argmax_last P key q) as [s|]; [|done].
  destruct H as (i & Hi & HP & _).
  apply list_elem_of_lookup_2 in Hi. apply Hn in Hi. congruence.
Qed.

Lemma some_in_argmax_last P key q s :
  s ∈ q -> P s = true -> exists s', argmax_last P key q = Some s'.
Proof.
  intros Hs HP. pose proof (argmax_last_spec key P q) as H.
  destruct (argmax_last P key q) as [s'|]; [by exists s'|].
  apply H in Hs. congruence.
Qed.

Lemma matches_non_progressive s :
  Query.matches non_progressive s && Query.has_attr resolution s = adaptive_video s.
Proof.
  unfold Query.matches, adaptive_video; simpl.
  by destruct (is_progressive s), (Query.has_attr resolution s).
Qed.

Lemma matches_non_progressive_mp4 s :
  Query.matches non_progressive_mp4 s && Query.has_attr resolution s
  = adaptive_mp4_video s.
Proof.
  unfold Query.matches, adaptive_mp4_video; simpl.
  by destruct (is_progressive s), (String.eqb (subtype s) "mp4"),
    (Query.has_attr resolution s).
Qed.

Lemma matches_non_progressive_abr s :
  Query.matches non_progressive s && Query.has_attr abr s = adaptive_audio s.
Proof.
  unfold Query.matches, adaptive_audio; simpl.
  by destruct (is_progressive s), (Query.has_attr abr s).
Qed.

Lemma matches_progressive s :
  Query.matches progressive s && Query.has_attr resolution s = progressive_video s.
Proof.
  unfold Query.matches, progressive_video; simpl.
  by destruct (is_progressive s), (Query.has_attr resolution s).
Qed.

Lemma highest_quality_stream_eq q :
  Query.last (Query.order_by resolution (Query.filter non_progressive q))
  = argmax_last adaptive_video res_key q.
Proof.
  rewrite select_last_spec. apply argmax_last_ext, matches_non_progressive.
Qed.

Lemma mp4_stream_eq q :
  Query.last (Query.order_by resolution (Query.filter non_progressive_mp4 q))
  = argmax_last adaptive_mp4_video res_key q.
Proof.
  rewrite select_last_spec. apply argmax_last_ext, matches_non_progressive_mp4.
Qed.

Lemma ffmpeg_audio_stream_eq q :
  ffmpeg_audio_stream q = argmax_last adaptive_audio abr_key q.
Proof.
  unfold ffmpeg_audio_stream.
  rewrite select_last_spec. apply argmax_last_ext, matches_non_progressive_abr.
Qed.

Lemma highest_progressive_stream_eq q :
  highest_progressive_stream q = argmax_last progressive_video res_key q.
Proof.
  unfold highest_progressive_stream.
  rewrite select_last_spec. apply argmax_last_ext, matches_progressive.
Qed.

Lemma adaptive_mp4_is_adaptive s :
  adaptive_mp4_video s = true -> adaptive_video s = true.
Proof.
  unfold adaptive_mp4_video, adaptive_video.
  destruct (is_progressive s), (String.eqb (subtype s) "mp4"),
    (Query.has_attr resolution s); done.
Qed.

(** C5.  The best progressive stream is the progressive stream with the
    numerically highest resolution, the last one in catalog order among
    equals; there is none exactly when no progressive stream (with a
    resolution) exists, in particular when the catalog has no progressive
    stream; on the catalog [itag 18 at 360p; itag 22 at 720p] it is itag
    22. *)
Theorem best_progressive_selection (q : list Stream) :
  match highest_progressive_stream q with
  | Some s => last_max_in progressive_video res_key q s
  | None => none_in progressive_video q
  end
  /\ (none_in is_progressive q -> highest_progressive_stream q = None)
  /\ itag <$> highest_progressive_stream Examples.progressive_catalog = Some 22.
Proof.
  split; [|split].
  - rewrite highest_progressive_stream_eq. apply argmax_last_spec.
  - intros Hn. rewrite highest_progressive_stream_eq.
    apply none_in_argmax_last. intros s Hs.
    unfold progressive_video. by rewrite (Hn s Hs).
  - reflexivity.
Qed.

Lemma best_progressive_selection_witness :
  none_in is_progressive Examples.webm_only_catalog
  /\ highest_progressive_stream Examples.webm_only_catalog = None.
Proof.
  assert (H : none_in is_progressive Examples.webm_only_catalog).
  { intros s Hs. unfold Examples.webm_only_catalog in Hs.
    repeat (apply elem_of_cons in Hs as [->|Hs]; [reflexivity|]).
    by apply elem_of_nil in Hs. }
  split; [exact H|].
  exact (proj1 (proj2 (best_progressive_selection Examples.webm_only_catalog)) H).
Defined.

Lemma matches_non_progressive_at r s :
  Query.matches (non_progressive_at r) s = adaptive_at r s.
Proof.
  unfold Query.matches, adaptive_at; simpl. by destruct (is_progressive s).
Qed.

Lemma matches_at_resolution r s :
  Query.matches (at_resolution r) s = any_at r s.
Proof. done. Qed.

(** C3, as the code has it.  In the dual-stream path ([ffmpeg_process] with
    a resolution other than "best") the explicit-resolution selection is the
    first stream of the catalog that is non-progressive and has the given
    resolution, and none when no such stream exists; in the single-stream
    path ([download_by_resolution]) it is the first stream with the given
    resolution, progressive or not, and none when no stream has it. *)
Theorem explicit_resolution_selection (q : list Stream) (r : string) :
  (r <> "best" ->
   match ffmpeg_video_stream q (Some r) with
   | inr (Some s) => first_in (adaptive_at r) q s
   | inr None => none_in (adaptive_at r) q
   | inl _ => False
   end)
  /\ match by_resolution_stream q r with
     | Some s => first_in (any_at r) q s
     | None => none_in (any_at r) q
     end.
Proof.
  split.
  - intros Hr. unfold ffmpeg_video_stream.
    destruct (String.eqb_spec r "best") as [->|_]; [done|].
    unfold Query.filter.
    rewrite (List.filter_ext _ _ (matches_non_progressive_at r)).
    apply first_filter_spec.
  - unfold by_resolution_stream, Query.filter.
    rewrite (List.filter_ext _ _ (matches_at_resolution r)).
    apply first_filter_spec.
Qed.

Lemma explicit_resolution_selection_witness :
  "720p" <> "best"
  /\ match ffmpeg_video_stream Examples.mixed_catalog (Some "720p") with
     | inr (Some s) => first_in (adaptive_at "720p") Examples.mixed_catalog s
     | inr None => none_in (adaptive_at "720p") Examples.mixed_catalog
     | inl _ => False
     end.
Proof.
  assert (H : "720p" <> "best") by discriminate.
  split; [exact H|].
  exact (proj1 (explicit_resolution_selection Examples.mixed_catalog "720p") H).
Defined.

(** C3 fails as stated: [download_by_resolution] picks the progressive
    stream with itag 22, which comes before the first non-progressive 720p
    stream. *)
Lemma explicit_resolution_counterexample :
  by_resolution_stream Examples.mixed_catalog "720p" = Some Examples.s22
  /\ is_progressive Examples.s22 = true
  /\ ~ first_in (adaptive_at "720p") Examples.mixed_catalog Examples.s22.
Proof.
  split; [reflexivity|]. split; [reflexivity|].
  intros (i & _ & HP & _). discriminate HP.
Qed.

(** C2 at its failing inputs, and where the code does as the claim says.
    On a catalog with a non-progressive mp4 stream that has a resolution,
    the "best" selection computes the highest non-progressive stream [h]
    and the highest non-progressive mp4 stream [m] (last in catalog order
    among equals) and returns [m] when both have the same resolution, [h]
    otherwise; so when the highest resolution [r] is offered by an mp4
    stream, an mp4 stream at [r] is returned.  On a catalog whose
    non-progressive video streams are all of another subtype than mp4, the
    overall highest stream [h] exists and is not returned: the selection
    raises [AttributeError], line 134 reading [.resolution] of the [None]
    that the mp4-restricted query gives.  The audio stream is, on every
    catalog, the non-progressive stream with the highest average bitrate,
    whatever its subtype, and there is none exactly when no non-progressive
    stream has a bitrate. *)
Theorem best_adaptive_selection (q : list Stream) :
  ((exists s, s ∈ q /\ adaptive_mp4_video s = true) ->
   exists h m v,
     last_max_in adaptive_video res_key q h
     /\ last_max_in adaptive_mp4_video res_key q m
     /\ v = (if decide (resolution h = resolution m) then m else h)
     /\ ffmpeg_video_stream q None = inr (Some v)
     /\ ffmpeg_video_stream q (Some "best") = inr (Some v)
     /\ (forall r v1, v1 ∈ q -> adaptive_mp4_video v1 = true ->
           resolution v1 = Some r ->
           (forall s, s ∈ q -> adaptive_video s = true ->
              (res_key s < Query.numeric r)%N \/ resolution s = Some r) ->
           subtype v = "mp4" /\ resolution v = Some r))
  /\ (forall h, last_max_in adaptive_video res_key q h ->
        none_in adaptive_mp4_video q ->
        ffmpeg_video_stream q None = inl AttributeError
        /\ ffmpeg_video_stream q (Some "best") = inl AttributeError)
  /\ match ffmpeg_audio_stream q with
     | Some a => last_max_in adaptive_audio abr_key q a
     | None => none_in adaptive_audio q
     end.
Proof.
  split; [|split].
  - intros (s0 & Hs0 & Hmp4).
    destruct (some_in_argmax_last _ res_key _ _ Hs0 Hmp4) as (m & Hm).
    destruct (some_in_argmax_last _ res_key _ _ Hs0
                (adaptive_mp4_is_adaptive _ Hmp4)) as (h & Hh).
    pose proof (argmax_last_spec res_key adaptive_video q) as Hhs.
    pose proof (argmax_last_spec res_key adaptive_mp4_video q) as Hms.
    rewrite Hh in Hhs. rewrite Hm in Hms.
    exists h, m, (if decide (resolution h = resolution m) then m else h).
    split; [done|]. split; [done|]. split; [done|].
    assert (Hbest : best_video_stream q
              = inr (Some (if decide (resolution h = resolution m) then m else h))).
    { unfold best_video_stream.
      rewrite highest_quality_stream_eq, mp4_stream_eq, Hh, Hm.
      by destruct (decide (resolution h = resolution m)). }
    split; [exact Hbest|]. split; [exact Hbest|].
    intros r v1 Hv1 Hv1P Hv1r Htop.
    destruct Hhs as (i & Hi & HPh & Hhmax).
    destruct Hms as (j & Hj & HPm & Hmmax).
    assert (Hkey1 : res_key v1 = Query.numeric r).
    { unfold res_key, Query.key_of. by rewrite Hv1r. }
    assert (Hres : forall s, s ∈ q -> adaptive_video s = true ->
              (res_key v1 <= res_key s)%N -> resolution s = Some r).
    { intros s Hs HPs Hle. destruct (Htop s Hs HPs) as [Hlt|Heq]; [lia|done]. }
    apply list_elem_of_lookup_1 in Hv1 as (k & Hk).
    assert (Hhr : resolution h = Some r).
    { apply Hres.
      - by apply list_elem_of_lookup_2 in Hi.
      - done.
      - apply (Hhmax k v1 Hk). by apply adaptive_mp4_is_adaptive. }
    assert (Hmr : resolution m = Some r).
    { apply Hres.
      - by apply list_elem_of_lookup_2 in Hj.
      - by apply adaptive_mp4_is_adaptive.
      - by apply (Hmmax k v1 Hk). }
    rewrite decide_True by congruence.
    split; [|done].
    unfold adaptive_mp4_video in HPm.
    apply andb_true_iff in HPm as [HPm _]. apply andb_true_iff in HPm as [_ HPm].
    by apply String.eqb_eq in HPm.
  - intros h (i & Hi & HPh & _) Hnone.
    assert (Hbest : best_video_stream q = inl AttributeError).
    { unfold best_video_stream.
      rewrite highest_quality_stream_eq, mp4_stream_eq.
      rewrite (none_in_argmax_last _ _ _ Hnone).
      by destruct (argmax_last adaptive_video res_key q). }
    split; exact Hbest.
  - rewrite ffmpeg_audio_stream_eq. apply argmax_last_spec.
Qed.

Lemma best_adaptive_selection_witness :
  (exists v,
     ffmpeg_video_stream Examples.tie_catalog None = inr (Some v)
     /\ subtype v = "mp4" /\ resolution v = Some "1080p")
  /\ last_max_in adaptive_video res_key Examples.webm_only_catalog Examples.v248
  /\ none_in adaptive_mp4_video Examples.webm_only_catalog
  /\ ffmpeg_video_stream Examples.webm_only_catalog None = inl AttributeError.
Proof.
  split.
  - assert (H : exists s, s ∈ Examples.tie_catalog /\ adaptive_mp4_video s = true).
    { exists Examples.v137. split; [|reflexivity].
      unfold Examples.tie_catalog. apply elem_of_cons. right.
      apply elem_of_cons. by left. }
    destruct (proj1 (best_adaptive_selection Examples.tie_catalog) H)
      as (h & m & v & _ & _ & _ & Hv & _ & Htie).
    exists v. split; [exact Hv|].
    apply (Htie "1080p" Examples.v137).
    + unfold Examples.tie_catalog. apply elem_of_cons. right.
      apply elem_of_cons. by left.
    + reflexivity.
    + reflexivity.
    + intros s Hs HP. unfold Examples.tie_catalog in Hs.
      repeat (apply elem_of_cons in Hs as [->|Hs];
              [first [by right | by left | discriminate HP]|]).
      by apply elem_of_nil in Hs.
  - assert (Hh : last_max_in adaptive_video res_key Examples.webm_only_catalog
                   Examples.v248).
    { exists 0%nat. split; [reflexivity|]. split; [reflexivity|].
      intros [|[|[|j]]] s' Hj HP; simpl in Hj; try discriminate Hj;
        injection Hj as <-; [split; [reflexivity|lia]|discriminate HP]. }
    assert (Hn : none_in adaptive_mp4_video Examples.webm_only_catalog).
    { intros s Hs. unfold Examples.webm_only_catalog in Hs.
      repeat (apply elem_of_cons in Hs as [->|Hs]; [reflexivity|]).
      by apply elem_of_nil in Hs. }
    split; [exact Hh|]. split; [exact Hn|].
    exact (proj1 (proj1 (proj2 (best_adaptive_selection Examples.webm_only_catalog))
                   Examples.v248 Hh Hn)).
Defined.

(** C1 at its failing inputs.  With no resolution or with "best", on a
    catalog without non-progressive streams (the empty catalog, say),
    [ffmpeg_process] raises [AttributeError] at line 134 before anything is
    printed: the guard of line 141 is not reached. *)
Theorem best_adaptive_not_found_raises (E : Env) (url : string)
    (res target : option string) (w : world) :
  res = None \/ res = Some "best" ->
  none_in (fun s => negb (is_progressive s)) (streams (YouTube E url)) ->
  ffmpeg_process E url res target w = (inl AttributeError, w).
Proof.
  intros Hres Hnone.
  assert (Hbest : best_video_stream (streams (YouTube E url)) = inl AttributeError).
  { unfold best_video_stream. rewrite highest_quality_stream_eq.
    rewrite none_in_argmax_last; [done|].
    intros s Hs. unfold adaptive_video. by rewrite (Hnone s Hs). }
  unfold ffmpeg_process, ffmpeg_video_stream.
  destruct Hres as [->| ->]; simpl; by rewrite Hbest.
Qed.

Lemma best_adaptive_not_found_raises_witness :
  (@None string = None \/ @None string = Some "best")
  /\ none_in (fun s => negb (is_progressive s))
       (streams (YouTube (Examples.env_of [] 80) "u"))
  /\ ffmpeg_process (Examples.env_of [] 80) "u" None None Examples.empty_world
     = (inl AttributeError, Examples.empty_world).
Proof.
  assert (H1 : @None string = None \/ @None string = Some "best") by (by left).
  assert (H2 : none_in (fun s => negb (is_progressive s))
                 (streams (YouTube (Examples.env_of [] 80) "u"))).
  { intros s Hs. by apply elem_of_nil in Hs. }
  split; [exact H1|]. split; [exact H2|].
  exact (best_adaptive_not_found_raises (Examples.env_of [] 80) "u" None None
           Examples.empty_world H1 H2).
Defined.

(** ** Strings and paths *)

Lemma append_nil (t : string) : "" +:+ t = t.
Proof. reflexivity. Qed.

Lemma append_cons (a : ascii) (s t : string) :
  String a s +:+ t = String a (s +:+ t).
Proof. reflexivity. Qed.

Lemma length_append (s t : string) :
  String.length (s +:+ t) = (String.length s + String.length t)%nat.
Proof.
  induction s as [|a s IH]; [done|].
  rewrite append_cons. simpl. by rewrite IH.
Qed.

Lemma append_inj_r (t s1 s2 : string) : s1 +:+ t = s2 +:+ t -> s1 = s2.
Proof.
  revert s2. induction s1 as [|a s1 IH]; intros [|b s2] H;
    rewrite ?append_nil, ?append_cons in H.
  - done.
  - apply (f_equal String.length) in H.
    simpl in H. rewrite length_append in H. lia.
  - apply (f_equal String.length) in H.
    simpl in H. rewrite length_append in H. lia.
  - injection H as -> H. f_equal. by apply IH.
Qed.

Lemma append_assoc (s t u : string) : (s +:+ t) +:+ u = s +:+ (t +:+ u).
Proof.
  induction s as [|a s IH]; [done|].
  rewrite !append_cons. by f_equal.
Qed.

Lemma truthy_append_r (s t : string) : truthy t = true -> truthy (s +:+ t) = true.
Proof. destruct s; [done|done]. Qed.

Lemma file_name_truthy base media_type c :
  truthy (file_name base media_type c) = true.
Proof. unfold file_name. by apply truthy_append_r. Qed.

Lemma file_name_inj base media_type c c' :
  file_name base media_type c = file_name base media_type c' -> c = c'.
Proof.
  unfold file_name. intros H.
  do 4 apply String.app_inj in H.
  by apply (inj pretty) in H.
Qed.

Lemma starts_with_sep_base base x y :
  starts_with_sep (base +:+ "_" +:+ x) = starts_with_sep (base +:+ "_" +:+ y).
Proof. by destruct base. Qed.

Lemma os_path_join_inj_file target base x y :
  os_path_join target (base +:+ "_" +:+ x) = os_path_join target (base +:+ "_" +:+ y)
  -> x = y.
Proof.
  unfold os_path_join.
  rewrite (starts_with_sep_base base x y).
  destruct (starts_with_sep (base +:+ "_" +:+ y)).
  - intros H. by do 2 apply String.app_inj in H.
  - destruct (negb (truthy target) || ends_with_sep target).
    + intros H. by do 3 apply String.app_inj in H.
    + intros H. by do 4 apply String.app_inj in H.
Qed.

Lemma file_path_inj base subtype media_type target c c' :
  file_path base subtype media_type target c
  = file_path base subtype media_type target c' -> c = c'.
Proof.
  unfold file_path, file_name. rewrite !append_assoc. intros H.
  apply os_path_join_inj_file in H.
  do 2 apply String.app_inj in H.
  apply append_inj_r in H. by apply (inj pretty) in H.
Qed.

Lemma str_or_idem (t : option string) (c : string) :
  str_or (Some (str_or t c)) c = str_or t c.
Proof.
  unfold str_or. destruct t as [s|].
  - destruct (truthy s) eqn:Hs; [by rewrite Hs|]. by destruct (truthy c).
  - by destruct (truthy c).
Qed.

(** ** The file-name allocator *)

Section Allocator.

Variables base subtype media_type target : string.
Variable d : gset string.

Local Abbreviation path := (file_path base subtype media_type target).
Local Abbreviation name := (file_name base media_type).
Local Abbreviation loop fuel := (unique_name_loop fuel base subtype media_type target d).

Lemma unique_name_loop_some fuel c0 nm :
  loop fuel c0 = Some nm ->
  exists c, (c0 <= c)%nat /\ nm = name c /\ (path c ∉ d)
    /\ forall c', (c0 <= c' < c)%nat -> path c' ∈ d.
Proof.
  revert c0. induction fuel as [|fuel IH]; intros c0 H; [done|].
  simpl in H. unfold os_path_exists in H.
  destruct (decide (path c0 ∈ d)) as [Hin|Hout].
  - rewrite bool_decide_eq_true_2 in H by done. simpl in H.
    destruct (IH _ H) as (c & Hle & -> & Hc & Hbelow).
    exists c. split; [lia|]. split; [done|]. split; [done|].
    intros c' Hc'. destruct (decide (c' = c0)) as [->|Hne]; [done|].
    apply Hbelow. lia.
  - rewrite bool_decide_eq_false_2 in H by done. simpl in H.
    injection H as <-. exists c0. split; [lia|]. split; [done|].
    split; [done|]. intros c' Hc'. lia.
Qed.

Lemma unique_name_loop_none fuel c0 :
  loop fuel c0 = None ->
  forall c', (c0 <= c' < c0 + fuel)%nat -> path c' ∈ d.
Proof.
  revert c0. induction fuel as [|fuel IH]; intros c0 H c' Hc'; [lia|].
  simpl in H. unfold os_path_exists in H.
  destruct (decide (path c0 ∈ d)) as [Hin|Hout].
  - rewrite bool_decide_eq_true_2 in H by done. simpl in H.
    destruct (decide (c' = c0)) as [->|Hne]; [done|].
    apply (IH _ H). lia.
  - rewrite bool_decide_eq_false_2 in H by done. done.
Qed.

(** A directory that holds the candidates of [n] counters holds at least
    [n] paths. *)
Lemma candidates_bounded n :
  (forall c', (c' < n)%nat -> path c' ∈ d) -> (n <= size d)%nat.
Proof.
  intros Hall.
  assert (Hsub : list_to_set (path <$> seq 0 n) ⊆ d).
  { intros p Hp. apply elem_of_list_to_set, list_elem_of_fmap in Hp
      as (c & -> & Hc).
    apply elem_of_seq in Hc. apply Hall. lia. }
  apply subseteq_size in Hsub.
  rewrite size_list_to_set in Hsub.
  - by rewrite length_fmap, length_seq in Hsub.
  - apply NoDup_fmap_2; [|apply NoDup_seq].
    intros c c'. apply file_path_inj.
Qed.

(** The loop of [_unique_name] stops: the allocator always returns. *)
Lemma unique_name_loop_total :
  is_Some (unique_name base subtype media_type target d).
Proof.
  unfold unique_name.
  destruct (loop (S (size d)) 0%nat) as [nm|] eqn:H; [by eexists|].
  pose proof (unique_name_loop_none _ _ H) as Hall.
  assert (S (size d) <= size d)%nat; [|lia].
  apply candidates_bounded. intros c' Hc'. apply Hall. lia.
Qed.

Lemma unique_name_spec :
  exists c,
    unique_name base subtype media_type target d = Some (name c)
    /\ (path c ∉ d)
    /\ forall c', (c' < c)%nat -> path c' ∈ d.
Proof.
  destruct unique_name_loop_total as (nm & H).
  destruct (unique_name_loop_some _ _ _ H) as (c & _ & -> & Hc & Hbelow).
  exists c. split; [done|]. split; [done|].
  intros c' Hc'. apply Hbelow. lia.
Qed.

(** The counter is determined by the directory contents. *)
Lemma unique_name_at c :
  path c ∉ d -> (forall c', (c' < c)%nat -> path c' ∈ d) ->
  unique_name base subtype media_type target d = Some (name c).
Proof.
  intros Hc Hbelow.
  destruct unique_name_spec as (c1 & -> & Hc1 & Hbelow1).
  destruct (Nat.lt_trichotomy c c1) as [Hlt|[->|Hgt]]; [|done|].
  - by specialize (Hbelow1 c Hlt).
  - by specialize (Hbelow c1 Hgt).
Qed.

End Allocator.

(** C6.  The allocator returns, without touching the directory, the name
    "{base}_{mediaKind}_{c}" (no extension) for the smallest counter [c],
    from 0, whose path "{base}_{mediaKind}_{c}.{subtype}" in the target
    directory does not exist; the name depends on the arguments and the
    directory contents only. *)
Theorem unique_name_smallest_free (base subtype media_type target : string)
    (w : world) :
  exists c : nat,
    _unique_name base subtype media_type target w
      = (inr (file_name base media_type c), w)
    /\ os_path_exists (file_path base subtype media_type target c) (fs w) = false
    /\ (forall c', (c' < c)%nat ->
          os_path_exists (file_path base subtype media_type target c') (fs w) = true)
    /\ (forall w', fs w' = fs w ->
          fst (_unique_name base subtype media_type target w')
          = inr (file_name base media_type c)).
Proof.
  destruct (unique_name_spec base subtype media_type target (fs w))
    as (c & Hu & Hc & Hbelow).
  exists c. split; [|split; [|split]].
  - unfold _unique_name, bind, get_fs, ret. by rewrite Hu.
  - by apply bool_decide_eq_false_2.
  - intros c' Hc'. by apply bool_decide_eq_true_2, Hbelow.
  - intros w' Hw'. unfold _unique_name, bind, get_fs, ret. by rewrite Hw', Hu.
Qed.

Lemma unique_name_smallest_free_example :
  fst (_unique_name "clip" "mp4" "video" "/dl"
         (mkWorld {[ "/dl/clip_video_0.mp4"; "/dl/clip_video_1.mp4";
                     "/dl/clip_video_3.mp4" ]} []))
  = inr "clip_video_2".
Proof. vm_compute. reflexivity. Qed.

(** ** Sequences of allocations *)

Lemma create_file_eq p w :
  create_file p w = (inr tt, mkWorld ({[ p ]} ∪ fs w) (out w)).
Proof. reflexivity. Qed.

Lemma _unique_name_at base subtype media_type target w c :
  file_path base subtype media_type target c ∉ fs w ->
  (forall c', (c' < c)%nat -> file_path base subtype media_type target c' ∈ fs w) ->
  _unique_name base subtype media_type target w
  = (inr (file_name base media_type c), w).
Proof.
  intros Hc Hbelow. unfold _unique_name, bind, get_fs, ret.
  by rewrite (unique_name_at _ _ _ _ _ c Hc Hbelow).
Qed.

Lemma allocate_n_from n base subtype media_type target k w :
  (forall c, file_path base subtype media_type target c ∈ fs w <-> (c < k)%nat) ->
  fst (allocate_n n base subtype media_type target w)
  = inr (file_name base media_type <$> seq k n).
Proof.
  revert k w. induction n as [|n IH]; intros k w Hinv; [done|].
  simpl allocate_n. unfold bind at 1.
  rewrite (_unique_name_at _ _ _ _ _ k).
  - unfold bind at 1. rewrite create_file_eq. unfold bind at 1.
    set (w1 := mkWorld _ _).
    assert (Hinv1 : forall c,
      file_path base subtype media_type target c ∈ fs w1 <-> (c < S k)%nat).
    { intros c. unfold w1. simpl.
      change (os_path_join target (file_name base media_type k +:+ "." +:+ subtype))
        with (file_path base subtype media_type target k).
      rewrite elem_of_union, elem_of_singleton, Hinv. split.
      - intros [Heq|Hlt]; [|lia]. apply file_path_inj in Heq. lia.
      - intros Hc. destruct (decide (c = k)) as [->|Hne]; [by left|right; lia]. }
    specialize (IH (S k) w1 Hinv1).
    destruct (allocate_n n base subtype media_type target w1) as [[e|names] w'];
      simpl in IH |- *; [discriminate IH|].
    by injection IH as ->.
  - rewrite Hinv. lia.
  - intros c' Hc'. by apply Hinv.
Qed.

Lemma probe_n_from n base subtype media_type target w c :
  file_path base subtype media_type target c ∉ fs w ->
  (forall c', (c' < c)%nat -> file_path base subtype media_type target c' ∈ fs w) ->
  probe_n n base subtype media_type target w
  = (inr (replicate n (file_name base media_type c)), w).
Proof.
  intros Hc Hbelow. induction n as [|n IH]; [done|].
  simpl probe_n. unfold bind at 1.
  rewrite (_unique_name_at _ _ _ _ _ c Hc Hbelow).
  unfold bind. by rewrite IH.
Qed.

(** C7, as the code has it.  Against an initially-empty directory, [n]
    allocations in sequence for the same (base, subtype, media kind), the
    file of each allocated name being created before the next call, return
    the counters 0, 1, ..., n-1 in that order, and the [n] names are
    pairwise distinct; when nothing is created in between, every call
    returns the counter 0. *)
Theorem sequential_allocation (n : nat) (base subtype media_type target : string)
    (w : world) :
  fs w = ∅ ->
  fst (allocate_n n base subtype media_type target w)
    = inr (file_name base media_type <$> seq 0 n)
  /\ NoDup (file_name base media_type <$> seq 0 n)
  /\ fst (probe_n n base subtype media_type target w)
     = inr (replicate n (file_name base media_type 0)).
Proof.
  intros Hw. split; [|split].
  - apply allocate_n_from. intros c. rewrite Hw. split; [|lia].
    intros H. by apply not_elem_of_empty in H.
  - apply NoDup_fmap_2; [|apply NoDup_seq].
    intros c c'. apply file_name_inj.
  - rewrite (probe_n_from _ _ _ _ _ _ 0); [done| |intros c' Hc'; lia].
    rewrite Hw. apply not_elem_of_empty.
Qed.

Lemma sequential_allocation_witness :
  fs Examples.empty_world = ∅
  /\ fst (allocate_n 3 "clip" "mp4" "video" "/dl" Examples.empty_world)
     = inr ["clip_video_0"; "clip_video_1"; "clip_video_2"].
Proof.
  split; [reflexivity|].
  exact (proj1 (sequential_allocation 3 "clip" "mp4" "video" "/dl"
                  Examples.empty_world eq_refl)).
Defined.

(** C7 fails as stated: the allocator creates nothing, so two calls in
    sequence against the empty directory return the same name, counter 0
    both times. *)
Lemma sequential_allocation_counterexample :
  fst (probe_n 2 "clip" "mp4" "video" "/dl" Examples.empty_world)
  = inr ["clip_video_0"; "clip_video_0"]
  /\ ~ NoDup ["clip_video_0"; "clip_video_0"].
Proof.
  split; [vm_compute; reflexivity|].
  intros H. apply NoDup_cons in H as [H _]. apply H, elem_of_cons. by left.
Qed.

(** ** Downloads *)

Section Download.

Variable E : Env.

Lemma _download_fresh s target filename w :
  get_file_path E s filename target ∉ fs w ->
  _download E s target filename w
  = (inr tt,
     mkWorld ({[ get_file_path E s filename target ]} ∪ fs w)
       (out w ++ [download_header s filename;
                  Transfer s (get_file_path E s filename target);
                  Stdout "
"])).
Proof.
  intros Hp. unfold _download, exists_at_path, download, print, stdout_write,
    bind, emit, get_fs, ret, create_file, os_path_exists. simpl.
  rewrite bool_decide_eq_false_2 by done. simpl.
  by rewrite <- !app_assoc.
Qed.

Lemma _download_present s target filename w :
  get_file_path E s filename target ∈ fs w ->
  _download E s target filename w
  = (inr tt,
     mkWorld (fs w)
       (out w ++ [download_header s filename;
                  already_downloaded (get_file_path E s filename target)])).
Proof.
  intros Hp. unfold _download, exists_at_path, download, print, stdout_write,
    bind, emit, get_fs, ret, create_file, os_path_exists. simpl.
  rewrite bool_decide_eq_true_2 by done. simpl.
  by rewrite <- !app_assoc.
Qed.

Lemma new_events_app {A} (m : M A) w r w' (evs : list event) :
  m w = (r, w') -> out w' = (out w ++ evs)%list -> new_events m w = evs.
Proof.
  intros Hm Hout. unfold new_events. rewrite Hm. simpl.
  by rewrite Hout, drop_app_length.
Qed.

Lemma print_eq x w : print x w = (inr tt, mkWorld (fs w) (out w ++ [Stdout (x +:+ "
")])).
Proof. reflexivity. Qed.

End Download.

(** ** Names, extensions and dots *)

Lemma dot_free_append (s t : string) :
  dot_free (s +:+ t) = dot_free s && dot_free t.
Proof.
  induction s as [|a s IH]; [done|].
  rewrite append_cons. simpl. rewrite IH. by rewrite andb_assoc.
Qed.

Lemma pretty_N_char_dot_free (x : N) :
  Ascii.eqb (pretty_N_char x) "." = false.
Proof. unfold pretty_N_char. by repeat case_match. Qed.

Lemma pretty_N_go_dot_free (x : N) (s : string) :
  dot_free s = true -> dot_free (pretty_N_go x s) = true.
Proof.
  revert s. induction (N.lt_wf_0 x) as [x _ IH]; intros s Hs.
  destruct (decide (0 < x)%N) as [Hx|Hx].
  - rewrite pretty_N_go_step by done. apply IH.
    + by apply N.div_lt.
    + simpl. by rewrite pretty_N_char_dot_free, Hs.
  - replace x with 0%N by lia. by rewrite pretty_N_go_0.
Qed.

(** The decimal numeral of a counter has no dot. *)
Lemma pretty_nat_dot_free (c : nat) : dot_free (pretty c) = true.
Proof.
  unfold pretty, pretty_nat, pretty, pretty_N.
  destruct (decide (N.of_nat c = 0%N)); [done|].
  by apply pretty_N_go_dot_free.
Qed.

Lemma file_path_as_join (base subtype media_type target : string) (c : nat) :
  file_path base subtype media_type target c
  = os_path_join target
      (base +:+ "_" +:+ (media_type +:+ "_" +:+ pretty c +:+ "." +:+ subtype)).
Proof. unfold file_path, file_name. by rewrite !append_assoc. Qed.

Lemma file_name_as_join (base media_type target : string) (c : nat) :
  os_path_join target (file_name base media_type c)
  = os_path_join target (base +:+ "_" +:+ (media_type +:+ "_" +:+ pretty c)).
Proof. reflexivity. Qed.

(** The video file and the audio file of one run are different paths. *)
Lemma video_audio_paths_differ (base target : string) (cv ca : nat) :
  os_path_join target (file_name base "video" cv)
  <> os_path_join target (file_name base "audio" ca).
Proof.
  rewrite !file_name_as_join. intros H.
  apply os_path_join_inj_file in H. discriminate H.
Qed.

(** The file of an allocated name, which has no extension, is none of the
    paths the allocator probes. *)
Lemma allocated_not_probed (base subtype kind kind' target : string) (c c' : nat) :
  dot_free kind = true ->
  os_path_join target (file_name base kind c)
  <> file_path base subtype kind' target c'.
Proof.
  intros Hk H. rewrite file_name_as_join, file_path_as_join in H.
  apply os_path_join_inj_file in H.
  apply (f_equal dot_free) in H.
  rewrite !dot_free_append, Hk, !pretty_nat_dot_free in H.
  simpl in H. rewrite !andb_false_r in H. discriminate H.
Qed.

(** ** Downloads, run after run *)

Section Rerun.

Variable E : Env.

Lemma _download_eq (s : Stream) (target filename : option string) (w : world) :
  _download E s target filename w
  = (inr tt,
     mkWorld ({[ get_file_path E s filename target ]} ∪ fs w)
       (out w ++ download_trace E s target filename (fs w))).
Proof.
  unfold download_trace, os_path_exists.
  destruct (decide (get_file_path E s filename target ∈ fs w)) as [Hin|Hout].
  - rewrite _download_present, bool_decide_eq_true_2 by done.
    f_equal. f_equal. symmetry. apply subseteq_union_1_L.
    by apply singleton_subseteq_l.
  - by rewrite _download_fresh, bool_decide_eq_false_2 by done.
Qed.

Lemma transfers_download_trace (s : Stream) (target filename : option string)
    (d : gset string) :
  transfers (download_trace E s target filename d)
  = missing d s (get_file_path E s filename target).
Proof.
  unfold download_trace, missing.
  by destruct (os_path_exists (get_file_path E s filename target) d).
Qed.

Lemma transfers_app (l1 l2 : list event) :
  transfers (l1 ++ l2) = (transfers l1 ++ transfers l2)%list.
Proof. unfold transfers. by rewrite omap_app. Qed.

Lemma transfers_lines (pre : list string) :
  transfers ((fun x => Stdout (x +:+ "
")) <$> pre) = [].
Proof. by induction pre. Qed.

Lemma for_each_print (pre : list string) (w : world) :
  for_each pre print w
  = (inr tt, mkWorld (fs w) (out w ++ ((fun x => Stdout (x +:+ "
")) <$> pre))).
Proof.
  revert w. induction pre as [|x pre IH]; intros w.
  - destruct w. simpl. unfold ret. by rewrite app_nil_r.
  - simpl. unfold bind. rewrite print_eq, IH. simpl. by rewrite <- app_assoc.
Qed.

(** A run that prints [pre] and then downloads the selected stream without
    an explicit file name transfers it at most once over two runs: the
    second run finds the resolved path, reports it and transfers nothing. *)
Lemma print_download_rerun (pre : list string) (s : Stream)
    (target : option string) (w : world) :
  rerun_short_circuits
    (for_each pre print ;;; _download E s target None)
    (missing (fs w) s (get_file_path E s None target))
    (already_downloaded (get_file_path E s None target)) w.
Proof.
  set (p := get_file_path E s None target).
  set (m := (for_each pre print ;;; _download E s target None)).
  assert (Hm : forall w0, m w0
            = (inr tt, mkWorld ({[ p ]} ∪ fs w0)
                 (out w0 ++ ((fun x => Stdout (x +:+ "
")) <$> pre) ++ download_trace E s target None (fs w0)))).
  { intros w0. unfold m, bind. rewrite for_each_print, _download_eq. simpl.
    by rewrite <- app_assoc. }
  eexists _, _. split; [apply Hm|]. split; [|split; [apply Hm|split]].
  - unfold new_transfers. rewrite (new_events_app _ _ _ _ _ (Hm w) eq_refl).
    by rewrite transfers_app, transfers_lines, transfers_download_trace.
  - unfold new_transfers. rewrite (new_events_app _ _ _ _ _ (Hm _) eq_refl).
    rewrite transfers_app, transfers_lines, transfers_download_trace. simpl fs.
    unfold missing, os_path_exists. fold p.
    rewrite bool_decide_eq_true_2; [done|].
    apply elem_of_union. left. by apply elem_of_singleton.
  - assert (Hin : p ∈ {[ p ]} ∪ fs w).
    { apply elem_of_union. left. by apply elem_of_singleton. }
    simpl. rewrite !last_app. unfold download_trace at 1, os_path_exists.
    fold p. by rewrite (bool_decide_eq_true_2 _ Hin).
Qed.

Lemma rerun_short_circuits_ext (m m' : M unit) first report w :
  (forall w0, m w0 = m' w0) ->
  rerun_short_circuits m first report w -> rerun_short_circuits m' first report w.
Proof.
  intros Hext (w1 & w2 & H1 & H2 & H3 & H4 & H5).
  exists w1, w2. unfold new_transfers, new_events in *.
  by rewrite <- !Hext.
Qed.

Variables (url : string) (res target : option string) (v a : Stream).

Local Abbreviation T := (title (YouTube E url)).
Local Abbreviation tgt := (str_or target (cwd E)).
Local Abbreviation vname c := (file_name T "video" c).
Local Abbreviation aname c := (file_name T "audio" c).
Local Abbreviation vpath c := (os_path_join tgt (vname c)).
Local Abbreviation apath c := (os_path_join tgt (aname c)).

Lemma get_file_path_allocated (s : Stream) (kind : string) (c : nat) :
  get_file_path E s (Some (file_name T kind c)) (Some tgt)
  = os_path_join tgt (file_name T kind c).
Proof.
  unfold get_file_path. rewrite str_or_idem.
  unfold str_or at 2. by rewrite file_name_truthy.
Qed.

(** A run of [ffmpeg_process] once the counters of the two names are
    known. *)
Lemma ffmpeg_process_at (w : world) (cv ca : nat) :
  ffmpeg_video_stream (streams (YouTube E url)) res = inr (Some v) ->
  ffmpeg_audio_stream (streams (YouTube E url)) = Some a ->
  file_path T "mp4" "video" tgt cv ∉ fs w ->
  (forall c', (c' < cv)%nat -> file_path T "mp4" "video" tgt c' ∈ fs w) ->
  file_path T "mp4" "audio" tgt ca ∉ fs w ->
  (forall c', (c' < ca)%nat -> file_path T "mp4" "audio" tgt c' ∈ fs w) ->
  ffmpeg_process E url res target w
  = (if os_path_exists (vpath cv) (fs w) && os_path_exists (apath ca) (fs w)
     then print "Already downloaded both video and audio."
     else
       _download E v (Some tgt) (Some (vname cv)) ;;;
       _download E a (Some tgt) (Some (aname ca)) ;;;
       emit (Subprocess
         ["ffmpeg"; "-i"; vpath cv; "-i"; apath ca; "-c:v"; "copy";
          "-c:a"; "aac"; "-strict"; "experimental";
          tgt +:+ "/" +:+ T +:+ ".mp4"])) w.
Proof.
  intros Hv Ha Hcv Hbv Hca Hba.
  unfold ffmpeg_process. rewrite Hv, Ha. simpl lift.
  unfold bind at 1. unfold ret at 1.
  unfold bind at 1. rewrite (_unique_name_at _ _ _ _ _ cv Hcv Hbv).
  unfold bind at 1. rewrite (_unique_name_at _ _ _ _ _ ca Hca Hba).
  simpl attr_of. unfold bind at 1. unfold ret at 1.
  unfold bind at 1. unfold get_fs at 1.
  rewrite !get_file_path_allocated.
  by destruct (os_path_exists (vpath cv) (fs w) && os_path_exists (apath ca) (fs w)).
Qed.

(** Two runs of [ffmpeg_process] in a row: the first one transfers the
    streams whose file is missing, the second one finds both files and
    stops at the report. *)
Lemma ffmpeg_process_rerun (w : world) :
  ffmpeg_video_stream (streams (YouTube E url)) res = inr (Some v) ->
  ffmpeg_audio_stream (streams (YouTube E url)) = Some a ->
  exists cv ca : nat,
    _unique_name T "mp4" "video" tgt w = (inr (vname cv), w)
    /\ _unique_name T "mp4" "audio" tgt w = (inr (aname ca), w)
    /\ rerun_short_circuits (ffmpeg_process E url res target)
         (missing (fs w) v (vpath cv) ++ missing (fs w) a (apath ca))
         already_downloaded_both w.
Proof.
  intros Hv Ha.
  destruct (unique_name_spec T "mp4" "video" tgt (fs w)) as (cv & _ & Hcv & Hbv).
  destruct (unique_name_spec T "mp4" "audio" tgt (fs w)) as (ca & _ & Hca & Hba).
  exists cv, ca.
  split; [by apply _unique_name_at|]. split; [by apply _unique_name_at|].
  set (vp := vpath cv). set (ap := apath ca).
  assert (Hne : vp <> ap) by apply video_audio_paths_differ.
  (* the first run *)
  assert (Hfirst : exists w1,
            ffmpeg_process E url res target w = (inr tt, w1)
            /\ new_transfers (ffmpeg_process E url res target) w
               = (missing (fs w) v vp ++ missing (fs w) a ap)%list
            /\ vp ∈ fs w1 /\ ap ∈ fs w1 /\ fs w ⊆ fs w1
            /\ forall p, p ∈ fs w1 -> p ∈ fs w \/ p = vp \/ p = ap).
  { pose proof (ffmpeg_process_at w cv ca Hv Ha Hcv Hbv Hca Hba) as Hrun.
    fold vp ap in Hrun.
    destruct (os_path_exists vp (fs w) && os_path_exists ap (fs w)) eqn:Hboth.
    - apply andb_true_iff in Hboth as [Hvin Hain].
      rewrite print_eq in Hrun.
      eexists. split; [exact Hrun|]. split.
      + unfold new_transfers. rewrite (new_events_app _ _ _ _ _ Hrun eq_refl).
        unfold missing. by rewrite Hvin, Hain.
      + unfold os_path_exists in Hvin, Hain.
        apply bool_decide_eq_true_1 in Hvin, Hain. simpl.
        split; [done|]. split; [done|]. split; [done|]. intros p Hp. by left.
    - unfold bind in Hrun. rewrite !_download_eq in Hrun. simpl in Hrun.
      rewrite !get_file_path_allocated in Hrun. fold vp ap in Hrun.
      unfold emit in Hrun. simpl in Hrun.
      rewrite <- !app_assoc in Hrun.
      eexists. split; [exact Hrun|]. split.
      + unfold new_transfers. rewrite (new_events_app _ _ _ _ _ Hrun eq_refl).
        rewrite !transfers_app, !transfers_download_trace.
        rewrite !get_file_path_allocated. fold vp ap. simpl.
        rewrite app_nil_r. f_equal.
        unfold missing, os_path_exists.
        destruct (decide (ap ∈ fs w)) as [Hin|Hout].
        * rewrite !bool_decide_eq_true_2; [done|done|].
          apply elem_of_union. by right.
        * rewrite !bool_decide_eq_false_2; [done|done|].
          rewrite elem_of_union, elem_of_singleton. intros [Heq|Hin]; [|done].
          by apply Hne.
      + simpl. split; [|split; [|split]].
        * apply elem_of_union. right. apply elem_of_union. left.
          by apply elem_of_singleton.
        * apply elem_of_union. left. by apply elem_of_singleton.
        * intros p Hp. apply elem_of_union. right. apply elem_of_union. by right.
        * intros p Hp. rewrite !elem_of_union, !elem_of_singleton in Hp. tauto. }
  destruct Hfirst as (w1 & Hrun1 & Htr1 & Hvp1 & Hap1 & Hsub & Honly).
  (* the second run allocates the same names *)
  assert (Hfresh : forall kind c, file_path T "mp4" kind tgt c ∉ fs w ->
            file_path T "mp4" kind tgt c ∉ fs w1).
  { intros kind c Hc Hin. destruct (Honly _ Hin) as [H|[H|H]]; [done| |].
    - symmetry in H. by apply allocated_not_probed in H.
    - symmetry in H. by apply allocated_not_probed in H. }
  assert (Hrun2 : ffmpeg_process E url res target w1
            = (inr tt, mkWorld (fs w1) (out w1 ++ [already_downloaded_both]))).
  { rewrite (ffmpeg_process_at w1 cv ca Hv Ha).
    - fold vp ap. unfold os_path_exists.
      rewrite !bool_decide_eq_true_2 by done. simpl. apply print_eq.
    - by apply Hfresh.
    - intros c' Hc'. by apply Hsub, Hbv.
    - by apply Hfresh.
    - intros c' Hc'. by apply Hsub, Hba. }
  exists w1, (mkWorld (fs w1) (out w1 ++ [already_downloaded_both])).
  split; [exact Hrun1|]. split; [exact Htr1|]. split; [exact Hrun2|]. split.
  - unfold new_transfers. by rewrite (new_events_app _ _ _ _ _ Hrun2 eq_refl).
  - simpl. by rewrite last_snoc.
Qed.

End Rerun.

(** ** Running the orchestrator twice *)

(** C4.  Running a download routine twice with the same video, policy and
    target directory transfers each selected stream at most once, and once
    exactly when its resolved path was missing: the first run transfers the
    streams whose path is missing, the second run, finding the resolved
    path or paths on disk, reports "already downloaded" and transfers
    nothing.  This holds for the dual-stream path ([ffmpeg_process], whose
    two names the allocator hands out again on the second run, the files
    of the first run bearing no ".mp4" extension) and for the single-stream
    paths (by resolution, best progressive, by itag). *)
Theorem rerun_transfers_nothing (E : Env) (url : string) (target : option string)
    (w : world) :
  (forall res v a,
     ffmpeg_video_stream (streams (YouTube E url)) res = inr (Some v) ->
     ffmpeg_audio_stream (streams (YouTube E url)) = Some a ->
     exists cv ca : nat,
       let T := title (YouTube E url) in
       let tgt := str_or target (cwd E) in
       _unique_name T "mp4" "video" tgt w = (inr (file_name T "video" cv), w)
       /\ _unique_name T "mp4" "audio" tgt w = (inr (file_name T "audio" ca), w)
       /\ rerun_short_circuits (ffmpeg_process E url res target)
            (missing (fs w) v (os_path_join tgt (file_name T "video" cv))
             ++ missing (fs w) a (os_path_join tgt (file_name T "audio" ca)))
            already_downloaded_both w)
  /\ (forall r s,
        by_resolution_stream (streams (YouTube E url)) r = Some s ->
        rerun_short_circuits (download_by_resolution E url r target)
          (missing (fs w) s (get_file_path E s None target))
          (already_downloaded (get_file_path E s None target)) w)
  /\ (forall res s,
        highest_progressive_stream (streams (YouTube E url)) = Some s ->
        rerun_short_circuits (download_highest_resolution_progressive E url res target)
          (missing (fs w) s (get_file_path E s None target))
          (already_downloaded (get_file_path E s None target)) w)
  /\ (forall i s,
        Query.get_by_itag i (streams (YouTube E url)) = Some s ->
        rerun_short_circuits (download_by_itag E url i target)
          (missing (fs w) s (get_file_path E s None target))
          (already_downloaded (get_file_path E s None target)) w).
Proof.
  split; [|split; [|split]].
  - intros res v a Hv Ha. by apply ffmpeg_process_rerun.
  - intros r s Hs.
    apply (rerun_short_circuits_ext
             (for_each ["Downloading " +:+ r +:+ "..."] print
              ;;; _download E s target None)).
    + intros w0. unfold download_by_resolution. by rewrite Hs.
    + apply print_download_rerun.
  - intros res s Hs.
    apply (rerun_short_circuits_ext
             (for_each ["Downloading highest resolution progressive stream..."] print
              ;;; _download E s target None)).
    + intros w0. unfold download_highest_resolution_progressive. by rewrite Hs.
    + apply print_download_rerun.
  - intros i s Hs.
    apply (rerun_short_circuits_ext
             (for_each ["Downloading stream with itag " +:+ pretty i +:+ "..."] print
              ;;; _download E s target None)).
    + intros w0. unfold download_by_itag. by rewrite Hs.
    + apply print_download_rerun.
Qed.

Lemma rerun_transfers_nothing_witness :
  rerun_short_circuits
    (ffmpeg_process (Examples.env_of Examples.mp4_catalog 80) "u" None (Some "/dl"))
    [(Examples.v137, "/dl/clip_video_0"); (Examples.a140, "/dl/clip_audio_0")]
    already_downloaded_both Examples.empty_world
  /\ rerun_short_circuits
       (download_by_resolution (Examples.env_of Examples.mixed_catalog 80)
          "u" "720p" None)
       [(Examples.s22, "/home/user/clip.mp4")]
       (already_downloaded "/home/user/clip.mp4") Examples.empty_world.
Proof.
  split.
  - destruct (proj1 (rerun_transfers_nothing
                       (Examples.env_of Examples.mp4_catalog 80) "u" (Some "/dl")
                       Examples.empty_world)
                None Examples.v137 Examples.a140 eq_refl eq_refl)
      as (cv & ca & Hcv & Hca & Hrun).
    cbv zeta in Hcv, Hca, Hrun.
    change (_unique_name "clip" "mp4" "video" "/dl" Examples.empty_world
            = (inr (file_name "clip" "video" cv), Examples.empty_world)) in Hcv.
    change (_unique_name "clip" "mp4" "audio" "/dl" Examples.empty_world
            = (inr (file_name "clip" "audio" ca), Examples.empty_world)) in Hca.
    assert (Hv0 : _unique_name "clip" "mp4" "video" "/dl" Examples.empty_world
                  = (inr (file_name "clip" "video" 0), Examples.empty_world))
      by (vm_compute; reflexivity).
    assert (Ha0 : _unique_name "clip" "mp4" "audio" "/dl" Examples.empty_world
                  = (inr (file_name "clip" "audio" 0), Examples.empty_world))
      by (vm_compute; reflexivity).
    rewrite Hv0 in Hcv. rewrite Ha0 in Hca.
    assert (Hv1 : file_name "clip" "video" 0 = file_name "clip" "video" cv)
      by congruence.
    assert (Ha1 : file_name "clip" "audio" 0 = file_name "clip" "audio" ca)
      by congruence.
    apply file_name_inj in Hv1, Ha1. subst cv ca.
    exact Hrun.
  - exact (proj1 (proj2 (rerun_transfers_nothing
                           (Examples.env_of Examples.mixed_catalog 80) "u" None
                           Examples.empty_world))
             "720p" Examples.s22 eq_refl).
Defined.

(** The two runs of the dual-stream path on a catalog with an mp4 video
    and an mp4 audio stream, from an empty directory. *)
Lemma dual_stream_rerun_example :
  let run := ffmpeg_process (Examples.env_of Examples.mp4_catalog 80)
               "u" None (Some "/dl") in
  let w1 := snd (run Examples.empty_world) in
  fst (run Examples.empty_world) = inr tt
  /\ new_transfers run Examples.empty_world
     = [(Examples.v137, "/dl/clip_video_0"); (Examples.a140, "/dl/clip_audio_0")]
  /\ fst (run w1) = inr tt
  /\ new_events run w1 = [already_downloaded_both].
Proof. vm_compute. repeat split; reflexivity. Qed.

(** ** Reporting of selections that find nothing *)

(** With an explicit itag, an explicit resolution or the best progressive
    policy, a selection that finds no stream is reported on standard output
    and the routine returns normally, the file system untouched. *)
Lemma not_found_is_reported (E : Env) (url : string) (target : option string)
    (w : world) :
  (forall i, Query.get_by_itag i (streams (YouTube E url)) = None ->
     download_by_itag E url i target w
     = (inr tt, mkWorld (fs w)
          (out w ++ [Stdout ("No stream found with itag " +:+ pretty i +:+ "." +:+ "
")])))
  /\ (forall r, by_resolution_stream (streams (YouTube E url)) r = None ->
        download_by_resolution E url r target w
        = (inr tt, mkWorld (fs w)
             (out w ++ [Stdout ("Downloading " +:+ r +:+ "..." +:+ "
");
                        Stdout ("No stream found for resolution " +:+ r +:+ "
")])))
  /\ (forall res, highest_progressive_stream (streams (YouTube E url)) = None ->
        download_highest_resolution_progressive E url res target w
        = (inr tt, mkWorld (fs w)
             (out w ++ [Stdout "Downloading highest resolution progressive stream...
";
                        Stdout "No progressive stream found.
"])))
  /\ (forall r, ffmpeg_video_stream (streams (YouTube E url)) (Some r) = inr None ->
        ffmpeg_process E url (Some r) target w
        = (inr tt, mkWorld (fs w)
             (out w ++ [Stdout ("No streams found for resolution " +:+ r +:+ "
")]))).
Proof.
  split; [|split; [|split]].
  - intros i H. unfold download_by_itag. rewrite H.
    unfold print, emit. by rewrite !append_assoc.
  - intros r H. unfold download_by_resolution. rewrite H.
    unfold print, emit, bind. simpl. by rewrite <- !app_assoc, !append_assoc.
  - intros res H. unfold download_highest_resolution_progressive. rewrite H.
    unfold print, emit, bind. simpl. by rewrite <- !app_assoc.
  - intros r H. unfold ffmpeg_process. rewrite H. simpl.
    unfold print, emit, bind, ret. simpl. by rewrite !append_assoc.
Qed.

(** ** The playlist branch of [main] *)

(** C9.  Without [--audio], the playlist branch of [main] selects and
    downloads nothing: it only prints "Downloading playlist: <url>" and
    "Playlist processed successfully!", whatever the playlist holds (the
    environment, hence [download_playlist_video], plays no part), and leaves
    the file system as it was; so does [main] as a whole when no single
    video URL is given. *)
Theorem playlist_video_mode_is_inert (E : Env) (args : Args) (w : world) :
  a_audio args = false ->
  main_playlist E args w
    = (inr tt, mkWorld (fs w) (out w ++ playlist_lines args))
  /\ new_transfers (main_playlist E args) w = []
  /\ fs (snd (main_playlist E args w)) = fs w
  /\ (forall E', main_playlist E' args w = main_playlist E args w)
  /\ (is_set (a_url args) = false ->
      main E args w = (inr tt, mkWorld (fs w) (out w ++ playlist_lines args))).
Proof.
  intros Haudio.
  assert (Hrun : forall E0, main_playlist E0 args w
            = (inr tt, mkWorld (fs w) (out w ++ playlist_lines args))).
  { intros E0. unfold main_playlist, playlist_lines. rewrite Haudio.
    destruct (is_set (a_playlist args)).
    - unfold print, emit, bind. simpl. by rewrite <- !app_assoc, !append_assoc.
    - unfold ret. destruct w. simpl. by rewrite app_nil_r. }
  split; [apply Hrun|]. split; [|split; [|split]].
  - unfold new_transfers. rewrite (new_events_app _ _ _ _ _ (Hrun E) eq_refl).
    unfold playlist_lines. by destruct (is_set (a_playlist args)).
  - by rewrite Hrun.
  - intros E'. by rewrite !Hrun.
  - intros Hurl. unfold main, main_url. rewrite Hurl.
    unfold bind, ret. apply Hrun.
Qed.

Lemma playlist_video_mode_is_inert_witness :
  a_audio (mkArgs None (Some "PL") false) = false
  /\ main (Examples.env_of Examples.progressive_catalog 80)
       (mkArgs None (Some "PL") false) Examples.empty_world
     = (inr tt,
        mkWorld ∅ [Stdout "Downloading playlist: PL
";
                   Stdout "Playlist processed successfully!

"]).
Proof.
  split; [reflexivity|].
  exact (proj2 (proj2 (proj2 (proj2
    (playlist_video_mode_is_inert (Examples.env_of Examples.progressive_catalog 80)
       (mkArgs None (Some "PL") false) Examples.empty_world eq_refl)))) eq_refl).
Defined.

(** The playlist-video routine itself does transfer: [main] does not run
    it. *)
Lemma download_playlist_video_transfers :
  new_transfers
    (download_playlist_video (Examples.env_of Examples.progressive_catalog 80) "PL")
    Examples.empty_world
  = [(Examples.s22, "/home/user/clip.mp4")].
Proof. vm_compute. reflexivity. Qed.


(** ** Binary64 arithmetic *)

Module FloatFacts.

Import Float.

Lemma digits2_pos_size (p : positive) : digits2_pos p = Pos.size p.
Proof. induction p as [p IH|p IH|]; simpl; by rewrite ?IH. Qed.

Lemma Zdigits2_log2 (p : positive) : Zdigits2 (Zpos p) = Z.log2 (Zpos p) + 1.
Proof.
  unfold Zdigits2. rewrite digits2_pos_size.
  destruct p as [p|p|]; simpl; try done; lia.
Qed.

(** [Zdigits2 m] is the number of binary digits of a positive [m]. *)
Lemma Zdigits2_bounds (m : Z) :
  0 < m -> 2 ^ (Zdigits2 m - 1) <= m < 2 ^ Zdigits2 m.
Proof.
  intros Hm. destruct m as [|p|p]; try lia.
  rewrite Zdigits2_log2. replace (Z.log2 (Zpos p) + 1 - 1) with (Z.log2 (Zpos p)) by lia.
  pose proof (Z.log2_spec (Zpos p) Hm) as [H1 H2].
  replace (Z.log2 (Zpos p) + 1) with (Z.succ (Z.log2 (Zpos p))) by lia. lia.
Qed.

Lemma Zdigits2_nonneg (m : Z) : 0 <= Zdigits2 m.
Proof. destruct m; simpl; lia. Qed.

Lemma Zdigits2_pos (m : Z) : 0 < m -> 0 < Zdigits2 m.
Proof. destruct m; simpl; lia. Qed.

Lemma Zdigits2_le_pow (m k : Z) : 0 <= k -> 0 <= m < 2 ^ k -> Zdigits2 m <= k.
Proof.
  intros Hk [Hm Hlt]. destruct (Z.eq_dec m 0) as [->|Hne]; [simpl; lia|].
  assert (Hpos : 0 < m) by lia.
  destruct (Zdigits2_bounds m Hpos) as [Hlo _].
  destruct (Z_lt_le_dec k (Zdigits2 m)) as [Hgt|]; [|lia].
  assert (2 ^ k <= 2 ^ (Zdigits2 m - 1)) by (apply Z.pow_le_mono_r; lia).
  lia.
Qed.

Lemma Zdigits2_ge_pow (m k : Z) : 0 <= k -> 2 ^ k <= m -> k + 1 <= Zdigits2 m.
Proof.
  intros Hk Hle.
  assert (Hpos : 0 < m) by (pose proof (Z.pow_pos_nonneg 2 k); lia).
  destruct (Zdigits2_bounds m Hpos) as [_ Hhi].
  destruct (Z_lt_le_dec (Zdigits2 m) (k + 1)) as [Hlt|]; [|lia].
  assert (2 ^ Zdigits2 m <= 2 ^ k).
  { apply Z.pow_le_mono_r; [lia|lia]. }
  lia.
Qed.

(** Dropping [n] low bits drops [n] digits. *)
Lemma Zdigits2_div_pow (m n : Z) :
  0 <= n -> 2 ^ n <= m -> Zdigits2 (m / 2 ^ n) = Zdigits2 m - n.
Proof.
  intros Hn Hle.
  assert (Hpn : 0 < 2 ^ n) by (apply Z.pow_pos_nonneg; lia).
  assert (Hpos : 0 < m) by lia.
  destruct (Zdigits2_bounds m Hpos) as [Hlo Hhi].
  pose proof (Zdigits2_ge_pow m n Hn Hle) as Hd.
  set (d := Zdigits2 m) in *.
  assert (Hq1 : 2 ^ (d - n - 1) <= m / 2 ^ n).
  { apply Z.div_le_lower_bound; [lia|].
    rewrite <- Z.pow_add_r by lia. replace (n + (d - n - 1)) with (d - 1) by lia. lia. }
  assert (Hq2 : m / 2 ^ n < 2 ^ (d - n)).
  { apply Z.div_lt_upper_bound; [lia|].
    rewrite <- Z.pow_add_r by lia. replace (n + (d - n)) with d by lia. lia. }
  apply Z.le_antisymm.
  - apply Zdigits2_le_pow; [lia|]. split; [|lia].
    apply Z.div_pos; lia.
  - pose proof (Zdigits2_ge_pow (m / 2 ^ n) (d - n - 1)). lia.
Qed.

Lemma Zdigits2_succ (m : Z) : 0 <= m -> Zdigits2 (m + 1) <= Zdigits2 m + 1.
Proof.
  intros Hm. destruct (Z.eq_dec m 0) as [->|Hne]; [simpl; lia|].
  assert (Hpos : 0 < m) by lia.
  destruct (Zdigits2_bounds m Hpos) as [_ Hhi].
  apply Zdigits2_le_pow; [pose proof (Zdigits2_nonneg m); lia|].
  split; [lia|].
  rewrite Z.pow_add_r by (pose proof (Zdigits2_nonneg m); lia). lia.
Qed.

Lemma Zdigits2_mono (a b : Z) : 0 <= a <= b -> Zdigits2 a <= Zdigits2 b.
Proof.
  intros [Ha Hab]. destruct (Z.eq_dec b 0) as [->|Hne].
  - replace a with 0 by lia. lia.
  - destruct (Zdigits2_bounds b ltac:(lia)) as [_ Hhi].
    apply Zdigits2_le_pow; [apply Zdigits2_nonneg|lia].
Qed.

(** *** Shifting right *)

Lemma shr_1_m (r : shr_record) :
  0 <= shr_m r -> shr_m (shr_1 r) = shr_m r / 2.
Proof.
  destruct r as [m rb sb]. simpl. intros Hm.
  rewrite <- Z.div2_div.
  destruct m as [|[p|p|]|p]; try done; lia.
Qed.

Lemma iter_shr_1_m (n : positive) (r : shr_record) :
  0 <= shr_m r ->
  shr_m (SpecFloat.iter_pos shr_1 n r) = shr_m r / 2 ^ Zpos n.
Proof.
  revert r. induction n as [n IH|n IH|]; intros r Hr; simpl SpecFloat.iter_pos.
  - assert (H1 : 0 <= shr_m (shr_1 r)).
    { rewrite shr_1_m by done. apply Z.div_pos; lia. }
    assert (H2 : 0 <= shr_m (SpecFloat.iter_pos shr_1 n (shr_1 r))).
    { rewrite IH by done. apply Z.div_pos; [done|]. apply Z.pow_pos_nonneg; lia. }
    rewrite IH, IH, shr_1_m by done.
    rewrite !Z.div_div by (try apply Z.pow_pos_nonneg; lia).
    f_equal. change (Zpos n~1) with (2 * Zpos n + 1).
    rewrite Z.pow_add_r, Z.pow_mul_r, Z.pow_2_r by lia.
    change (2 * 2) with (2 ^ 2). rewrite <- Z.pow_mul_r by lia.
    replace (2 * Zpos n) with (Zpos n + Zpos n) by lia.
    rewrite Z.pow_add_r by lia. lia.
  - assert (H2 : 0 <= shr_m (SpecFloat.iter_pos shr_1 n r)).
    { rewrite IH by done. apply Z.div_pos; [done|]. apply Z.pow_pos_nonneg; lia. }
    rewrite IH, IH by done.
    rewrite !Z.div_div by (try apply Z.pow_pos_nonneg; lia).
    f_equal. change (Zpos n~0) with (2 * Zpos n).
    replace (2 * Zpos n) with (Zpos n + Zpos n) by lia.
    rewrite Z.pow_add_r by lia. lia.
  - rewrite shr_1_m by done. done.
Qed.

Lemma shr_record_of_loc_m m l : shr_m (shr_record_of_loc m l) = m.
Proof. by destruct l as [|[]]. Qed.

(** [shr_fexp] brings the exponent up to [fexp] of the magnitude, dropping
    the low digits of the mantissa. *)
Lemma shr_fexp_spec (m e : Z) (l : location) :
  0 <= m ->
  let e' := Z.max e (fexp prec emax (Zdigits2 m + e)) in
  snd (shr_fexp prec emax m e l) = e'
  /\ shr_m (fst (shr_fexp prec emax m e l)) = m / 2 ^ (e' - e).
Proof.
  intros Hm e'. unfold shr_fexp, shr.
  destruct (fexp prec emax (Zdigits2 m + e) - e) as [|n|n] eqn:Hn; simpl.
  - split; [lia|]. replace (e' - e) with 0 by lia.
    rewrite shr_record_of_loc_m. by rewrite Z.div_1_r.
  - split; [lia|].
    rewrite iter_shr_1_m by (by rewrite shr_record_of_loc_m).
    rewrite shr_record_of_loc_m. f_equal. f_equal. lia.
  - split; [lia|]. replace (e' - e) with 0 by lia.
    rewrite shr_record_of_loc_m. by rewrite Z.div_1_r.
Qed.

Lemma round_nearest_even_bounds (m : Z) (l : location) :
  m <= round_nearest_even m l <= m + 1.
Proof.
  unfold round_nearest_even.
  destruct l as [|[]]; try lia. destruct (Z.even m); lia.
Qed.


(** *** Rounding *)

(** The result of [binary_round_aux] on a mantissa [mx >= 0]: the mantissa
    is cut down to the precision, rounded to a neighbour, and cut once more
    if the rounding carried. *)
Lemma binary_round_aux_spec (sx : bool) (mx ex : Z) (lx : location) :
  0 <= mx ->
  let e1 := Z.max ex (fexp prec emax (Zdigits2 mx + ex)) in
  let m' := mx / 2 ^ (e1 - ex) in
  exists m1, m' <= m1 <= m' + 1 /\
    let e2 := Z.max e1 (fexp prec emax (Zdigits2 m1 + e1)) in
    binary_round_aux prec emax sx mx ex lx =
      match m1 / 2 ^ (e2 - e1) with
      | Z0 => S754_zero sx
      | Zpos m => if e2 <=? emax - prec then S754_finite sx m e2 else S754_infinity sx
      | Zneg _ => S754_nan
      end.
Proof.
  intros Hmx e1 m'. unfold binary_round_aux.
  destruct (shr_fexp_spec mx ex lx Hmx) as [He1 Hm1].
  destruct (shr_fexp prec emax mx ex lx) as [mrs1 e1'] eqn:Hs1.
  simpl in He1, Hm1. fold e1 in He1, Hm1. fold m' in Hm1. subst e1'.
  set (m1 := round_nearest_even (shr_m mrs1) (loc_of_shr_record mrs1)).
  assert (Hb : m' <= m1 <= m' + 1).
  { unfold m1. rewrite <- Hm1. apply round_nearest_even_bounds. }
  assert (Hm' : 0 <= m').
  { unfold m'. apply Z.div_pos; [done|]. apply Z.pow_pos_nonneg; lia. }
  exists m1. split; [done|].
  destruct (shr_fexp_spec m1 e1 loc_Exact ltac:(lia)) as [He2 Hm2].
  destruct (shr_fexp prec emax m1 e1 loc_Exact) as [mrs2 e2'] eqn:Hs2.
  simpl in He2, Hm2. subst e2'. by rewrite Hm2.
Qed.


Lemma fexp_normal (x : Z) : -1021 <= x -> fexp prec emax x = x - 53.
Proof. unfold fexp, SpecFloat.emin, prec, emax. lia. Qed.


(** The structure of a rounding in the normal range: the mantissa is cut to
    53 digits ([m']), moved to a neighbour ([m1]) and renormalised. *)
Lemma binary_round_aux_normal_strong (sx : bool) (mx ex : Z) (lx : location) :
  0 <= mx -> 53 <= Zdigits2 mx -> -1021 <= Zdigits2 mx + ex <= 1022 ->
  exists m e m1,
    binary_round_aux prec emax sx mx ex lx = S754_finite sx m e
    /\ Zdigits2 (Zpos m) = 53
    /\ Zdigits2 mx + ex - 53 <= e <= Zdigits2 mx + ex - 52
    /\ 2 ^ 52 <= mx / 2 ^ (Zdigits2 mx - 53)
    /\ mx / 2 ^ (Zdigits2 mx - 53) <= m1 <= mx / 2 ^ (Zdigits2 mx - 53) + 1
    /\ Zpos m * 2 ^ (e - (Zdigits2 mx + ex - 53)) = m1.
Proof.
  intros Hmx0 Hd Hmag.
  assert (Hmx : 0 < mx).
  { destruct mx; simpl in Hd; lia. }
  destruct (binary_round_aux_spec sx mx ex lx ltac:(lia)) as (m1 & [Hlo Hhi] & ->).
  set (D := Zdigits2 mx + ex) in *.
  rewrite (fexp_normal D) in * by lia.
  replace (Z.max ex (D - 53)) with (D - 53) in * by (unfold D; lia).
  set (e1 := D - 53) in *.
  replace (e1 - ex) with (Zdigits2 mx - 53) in * by (unfold e1, D; lia).
  set (m' := mx / 2 ^ (Zdigits2 mx - 53)) in *.
  destruct (Zdigits2_bounds mx Hmx) as [Hmlo Hmhi].
  assert (Hpow : 2 ^ (Zdigits2 mx - 53) <= mx).
  { assert (2 ^ (Zdigits2 mx - 53) <= 2 ^ (Zdigits2 mx - 1)); [|lia].
    apply Z.pow_le_mono_r; lia. }
  assert (Hd' : Zdigits2 m' = 53).
  { unfold m'. rewrite Zdigits2_div_pow by lia. lia. }
  assert (Hm' : 0 < m').
  { assert (0 <= m') by (apply Z.div_pos; [lia|apply Z.pow_pos_nonneg; lia]).
    destruct (Z.eq_dec m' 0) as [Hz|]; [|lia]. rewrite Hz in Hd'. simpl in Hd'. lia. }
  destruct (Zdigits2_bounds m' Hm') as [Hm'lo Hm'hi]. rewrite Hd' in Hm'lo, Hm'hi.
  assert (Hd1 : 53 <= Zdigits2 m1 <= 54).
  { pose proof (Zdigits2_mono m' m1 ltac:(lia)).
    pose proof (Zdigits2_mono m1 (m' + 1) ltac:(lia)).
    pose proof (Zdigits2_succ m' ltac:(lia)). lia. }
  rewrite (fexp_normal (Zdigits2 m1 + e1)) by (unfold e1; lia).
  replace (Z.max e1 (Zdigits2 m1 + e1 - 53)) with (e1 + (Zdigits2 m1 - 53)) by lia.
  replace (e1 + (Zdigits2 m1 - 53) - e1) with (Zdigits2 m1 - 53) by lia.
  assert (Hm1 : 0 < m1) by lia.
  destruct (Zdigits2_bounds m1 Hm1) as [Hm1lo Hm1hi].
  assert (Hexact : m1 / 2 ^ (Zdigits2 m1 - 53) * 2 ^ (Zdigits2 m1 - 53) = m1).
  { destruct (Z.eq_dec (Zdigits2 m1) 53) as [->|Hne].
    - simpl. rewrite Z.div_1_r. lia.
    - replace (Zdigits2 m1) with 54 in * by lia.
      assert (m1 = 2 ^ 53) as -> by (change (54 - 1) with 53 in Hm1lo; lia).
      reflexivity. }
  assert (Hpow1 : 2 ^ (Zdigits2 m1 - 53) <= m1).
  { assert (2 ^ (Zdigits2 m1 - 53) <= 2 ^ (Zdigits2 m1 - 1)); [|lia].
    apply Z.pow_le_mono_r; lia. }
  assert (Hd2 : Zdigits2 (m1 / 2 ^ (Zdigits2 m1 - 53)) = 53).
  { rewrite Zdigits2_div_pow by lia. lia. }
  destruct (m1 / 2 ^ (Zdigits2 m1 - 53)) as [|m|m] eqn:Hq;
    [simpl in Hd2; lia| |simpl in Hd2; pose proof (Z.div_pos m1 (2 ^ (Zdigits2 m1 - 53))
       ltac:(lia) ltac:(apply Z.pow_pos_nonneg; lia)); lia].
  replace (e1 + (Zdigits2 m1 - 53) <=? emax - prec) with true.
  - exists m, (e1 + (Zdigits2 m1 - 53)), m1. split; [done|].
    split; [done|]. split; [unfold e1; lia|]. split; [lia|]. split; [lia|].
    replace (e1 + (Zdigits2 m1 - 53) - e1) with (Zdigits2 m1 - 53) by lia. lia.
  - symmetry. apply Z.leb_le. unfold emax, prec, e1. lia.
Qed.


(** *** Conversion of integers *)

Lemma iter_xO_Z (m d : positive) : Zpos (Pos.iter xO m d) = Zpos m * 2 ^ Zpos d.
Proof.
  induction d as [|d IH] using Pos.peano_ind.
  - simpl. lia.
  - rewrite Pos.iter_succ, Pos2Z.inj_xO, IH, Pos2Z.inj_succ.
    rewrite Z.pow_succ_r by lia. lia.
Qed.

Lemma Zdigits2_mul_pow (m k : Z) :
  0 < m -> 0 <= k -> Zdigits2 (m * 2 ^ k) = Zdigits2 m + k.
Proof.
  intros Hm Hk. destruct (Zdigits2_bounds m Hm) as [Hlo Hhi].
  pose proof (Zdigits2_pos m Hm) as Hd.
  assert (Hp : 0 < 2 ^ k) by (apply Z.pow_pos_nonneg; lia).
  apply Z.le_antisymm.
  - apply Zdigits2_le_pow; [lia|]. split; [nia|].
    rewrite Z.pow_add_r by lia. nia.
  - pose proof (Zdigits2_ge_pow (m * 2 ^ k) (Zdigits2 m - 1 + k) ltac:(lia)) as H.
    rewrite Z.pow_add_r in H by lia.
    assert (2 ^ (Zdigits2 m - 1) * 2 ^ k <= m * 2 ^ k) by nia. lia.
Qed.




(** *** Division *)


(** *** Real values and relative errors *)

Lemma powerRZ_2_pos (e : Z) : (0 < powerRZ 2 e)%R.
Proof. apply powerRZ_lt. lra. Qed.

Lemma powerRZ_2_IZR (n : Z) : 0 <= n -> powerRZ 2 n = IZR (2 ^ n).
Proof.
  intros Hn. destruct n as [|p|p]; [done| |lia].
  simpl powerRZ. by rewrite pow_IZR, positive_nat_Z.
Qed.

Lemma powerRZ_2_split (a b : Z) : (powerRZ 2 (a + b) = powerRZ 2 a * powerRZ 2 b)%R.
Proof. apply powerRZ_add. lra. Qed.


(** Rounding in the normal range has a relative error of at most [2^-52]:
    for every real [v] that the mantissa [mx] approximates from below at
    exponent [ex], the rounded float lies within [v * (1 ± 2^-52)]. *)
Lemma binary_round_aux_rel (sx : bool) (mx ex : Z) (lx : location) (v : R) :
  0 <= mx -> 53 <= Zdigits2 mx -> -1021 <= Zdigits2 mx + ex <= 1022 ->
  (IZR mx * powerRZ 2 ex <= v < (IZR mx + 1) * powerRZ 2 ex)%R ->
  exists m e,
    binary_round_aux prec emax sx mx ex lx = S754_finite sx m e
    /\ Zdigits2 (Zpos m) = 53
    /\ Zdigits2 mx + ex - 53 <= e <= Zdigits2 mx + ex - 52
    /\ ((1 - eps) * v <= IZR (Zpos m) * powerRZ 2 e <= (1 + eps) * v)%R.
Proof.
  intros Hmx Hd Hmag Hv.
  destruct (binary_round_aux_normal_strong sx mx ex lx Hmx Hd Hmag)
    as (m & e & m1 & -> & Hdm & He & Hm' & Hm1 & Hval).
  exists m, e. split; [done|]. split; [done|]. split; [done|].
  set (n := Zdigits2 mx - 53) in *.
  set (m' := mx / 2 ^ n) in *.
  set (e1 := Zdigits2 mx + ex - 53) in *.
  assert (Hn : 0 <= n) by (unfold n; lia).
  assert (Hpn : 0 < 2 ^ n) by (apply Z.pow_pos_nonneg; lia).
  pose proof (Z.div_mod mx (2 ^ n) ltac:(lia)) as Hdm'.
  pose proof (Z.mod_pos_bound mx (2 ^ n) Hpn) as Hmod.
  fold m' in Hdm'.
  (* the value of the result *)
  assert (Hres : (IZR (Zpos m) * powerRZ 2 e = IZR m1 * powerRZ 2 e1)%R).
  { rewrite <- Hval, mult_IZR.
    replace e with (e - e1 + e1) at 1 by lia.
    rewrite powerRZ_2_split, (powerRZ_2_IZR (e - e1)) by lia. lra. }
  (* the window of [v] *)
  assert (Hex : (powerRZ 2 e1 = powerRZ 2 n * powerRZ 2 ex)%R).
  { rewrite <- powerRZ_2_split. f_equal. unfold e1, n. lia. }
  pose proof (powerRZ_2_pos ex) as Hpex.
  pose proof (powerRZ_2_pos e1) as Hpe1.
  assert (Hlow : (IZR m' * powerRZ 2 e1 <= v)%R).
  { rewrite Hex, (powerRZ_2_IZR n Hn), <- Rmult_assoc, <- mult_IZR.
    apply Rle_trans with (IZR mx * powerRZ 2 ex)%R; [|lra].
    apply Rmult_le_compat_r; [lra|]. apply IZR_le. lia. }
  assert (Hhigh : (v < (IZR m' + 1) * powerRZ 2 e1)%R).
  { rewrite Hex, (powerRZ_2_IZR n Hn), <- Rmult_assoc, <- plus_IZR, <- mult_IZR.
    apply Rlt_le_trans with ((IZR mx + 1) * powerRZ 2 ex)%R; [lra|].
    apply Rmult_le_compat_r; [lra|]. rewrite <- plus_IZR. apply IZR_le. lia. }
  assert (Hm'R : (IZR (2 ^ 52) <= IZR m')%R) by (apply IZR_le; lia).
  assert (Heps : (powerRZ 2 e1 <= eps * v)%R).
  { apply Rle_trans with (eps * (IZR m' * powerRZ 2 e1))%R.
    - unfold eps. rewrite <- Rmult_assoc.
      rewrite <- (Rmult_1_l (powerRZ 2 e1)) at 1.
      apply Rmult_le_compat_r; [lra|].
      assert (Hone : (powerRZ 2 (-52) * IZR (2 ^ 52) = 1)%R).
      { rewrite <- (powerRZ_2_IZR 52) by lia. rewrite <- powerRZ_2_split. done. }
      pose proof (powerRZ_2_pos (-52)). nra.
    - apply Rmult_le_compat_l; [|lra]. unfold eps. pose proof (powerRZ_2_pos (-52)). lra. }
  assert (Hm1R : (IZR m' <= IZR m1 <= IZR m' + 1)%R).
  { split; [apply IZR_le; lia|]. rewrite <- plus_IZR. apply IZR_le. lia. }
  rewrite Hres. nra.
Qed.

(** [float(z)] for a positive [z] within the range: relative error at most
    [2^-52]. *)
Lemma of_Z_rel (z : Z) :
  0 < z -> Zdigits2 z <= 1022 ->
  exists m e,
    of_Z z = S754_finite false m e
    /\ Zdigits2 (Zpos m) = 53
    /\ Zdigits2 z - 53 <= e <= Zdigits2 z - 52
    /\ ((1 - eps) * IZR z <= IZR (Zpos m) * powerRZ 2 e <= (1 + eps) * IZR z)%R.
Proof.
  intros Hz Hd. destruct z as [|p|p]; try lia.
  unfold of_Z, binary_normalize, binary_round.
  change (Zpos (digits2_pos p)) with (Zdigits2 (Zpos p)).
  set (d := Zdigits2 (Zpos p)) in *.
  pose proof (Zdigits2_pos (Zpos p) ltac:(lia)) as Hd0. fold d in Hd0.
  rewrite Z.add_0_r, (fexp_normal d) by lia.
  unfold shl_align.
  destruct (d - 53 - 0) as [|k|k] eqn:Hk.
  - destruct (binary_round_aux_rel false (Zpos p) 0 loc_Exact (IZR (Zpos p)))
      as (m & e & -> & Hm & He & Hv); fold d; try lia.
    { simpl powerRZ. lra. }
    exists m, e. fold d in He. split; [done|]. split; [done|]. split; [lia|]. exact Hv.
  - destruct (binary_round_aux_rel false (Zpos p) 0 loc_Exact (IZR (Zpos p)))
      as (m & e & -> & Hm & He & Hv); fold d; try lia.
    { simpl powerRZ. lra. }
    exists m, e. fold d in He. split; [done|]. split; [done|]. split; [lia|]. exact Hv.
  - assert (Hdz : Zdigits2 (Zpos (Pos.iter xO p k)) = 53).
    { rewrite iter_xO_Z, Zdigits2_mul_pow by lia. fold d. lia. }
    destruct (binary_round_aux_rel false (Zpos (Pos.iter xO p k)) (d - 53)
                loc_Exact (IZR (Zpos p)))
      as (m & e & -> & Hm & He & Hv); try lia.
    { rewrite iter_xO_Z, mult_IZR.
      assert (Hone : (IZR (2 ^ Zpos k) * powerRZ 2 (d - 53) = 1)%R).
      { rewrite <- (powerRZ_2_IZR (Zpos k)) by lia. rewrite <- powerRZ_2_split.
        replace (Zpos k + (d - 53)) with 0 by lia. done. }
      pose proof (powerRZ_2_pos (d - 53)).
      rewrite Rmult_plus_distr_r, Rmult_assoc, Hone. lra. }
    exists m, e. rewrite Hdz in He. split; [done|]. split; [done|]. split; [lia|]. exact Hv.
Qed.

(** The product of two positive floats with full mantissas, within the
    range. *)
Lemma SFmul_rel (mx my : positive) (ex ey : Z) :
  Zdigits2 (Zpos mx) = 53 -> Zdigits2 (Zpos my) = 53 ->
  -1021 <= (53 + ex) + (53 + ey) - 1 -> (53 + ex) + (53 + ey) <= 1022 ->
  exists m e,
    SFmul prec emax (S754_finite false mx ex) (S754_finite false my ey)
      = S754_finite false m e
    /\ Zdigits2 (Zpos m) = 53
    /\ ex + ey + 52 <= e <= ex + ey + 54
    /\ ((1 - eps) * (IZR (Zpos mx) * powerRZ 2 ex * (IZR (Zpos my) * powerRZ 2 ey))
        <= IZR (Zpos m) * powerRZ 2 e
        <= (1 + eps) * (IZR (Zpos mx) * powerRZ 2 ex * (IZR (Zpos my) * powerRZ 2 ey)))%R.
Proof.
  intros Hdx Hdy Hlo Hhi. unfold SFmul. simpl xorb.
  destruct (Zdigits2_bounds (Zpos mx) ltac:(lia)) as [Hx1 Hx2].
  destruct (Zdigits2_bounds (Zpos my) ltac:(lia)) as [Hy1 Hy2].
  rewrite Hdx in Hx1, Hx2. rewrite Hdy in Hy1, Hy2.
  change (53 - 1) with 52 in Hx1, Hy1.
  assert (Hp1 : 2 ^ 104 <= Zpos (mx * my)).
  { rewrite Pos2Z.inj_mul. change (2 ^ 104) with (2 ^ 52 * 2 ^ 52). nia. }
  assert (Hp2 : Zpos (mx * my) < 2 ^ 106).
  { rewrite Pos2Z.inj_mul. change (2 ^ 106) with (2 ^ 53 * 2 ^ 53). nia. }
  pose proof (Zdigits2_ge_pow _ 104 ltac:(lia) Hp1) as Hd1.
  pose proof (Zdigits2_le_pow (Zpos (mx * my)) 106 ltac:(lia) ltac:(lia)) as Hd2.
  destruct (binary_round_aux_rel false (Zpos (mx * my)) (ex + ey) loc_Exact
              (IZR (Zpos mx) * powerRZ 2 ex * (IZR (Zpos my) * powerRZ 2 ey))%R)
    as (m & e & -> & Hm & He & Hv); try lia.
  { rewrite Pos2Z.inj_mul, mult_IZR, powerRZ_2_split.
    pose proof (powerRZ_2_pos ex). pose proof (powerRZ_2_pos ey).
    assert (0 < powerRZ 2 ex * powerRZ 2 ey)%R by nra.
    split; [lra|]. nra. }
  exists m, e. split; [done|]. split; [done|]. split; [lia|]. exact Hv.
Qed.

(** The quotient of two positive floats with full mantissas, within the
    range. *)
Lemma SFdiv_rel (mx my : positive) (ex ey : Z) :
  Zdigits2 (Zpos mx) = 53 -> Zdigits2 (Zpos my) = 53 ->
  -1021 <= ex - ey -> ex - ey + 1 <= 1022 ->
  exists m e,
    SFdiv prec emax (S754_finite false mx ex) (S754_finite false my ey)
      = S754_finite false m e
    /\ Zdigits2 (Zpos m) = 53
    /\ ((1 - eps) * (IZR (Zpos mx) * powerRZ 2 ex / (IZR (Zpos my) * powerRZ 2 ey))
        <= IZR (Zpos m) * powerRZ 2 e
        <= (1 + eps) * (IZR (Zpos mx) * powerRZ 2 ex / (IZR (Zpos my) * powerRZ 2 ey)))%R.
Proof.
  intros Hdx Hdy Hlo Hhi. unfold SFdiv, SFdiv_core_binary. simpl xorb.
  rewrite Hdx, Hdy.
  replace (53 + ex - (53 + ey)) with (ex - ey) by lia.
  rewrite (fexp_normal (ex - ey)) by lia.
  replace (Z.min (ex - ey - 53) (ex - ey)) with (ex - ey - 53) by lia.
  replace (ex - ey - (ex - ey - 53)) with 53 by lia.
  rewrite Z.shiftl_mul_pow2 by lia.
  destruct (Zdigits2_bounds (Zpos mx) ltac:(lia)) as [Hx1 Hx2].
  destruct (Zdigits2_bounds (Zpos my) ltac:(lia)) as [Hy1 Hy2].
  rewrite Hdx in Hx1, Hx2. rewrite Hdy in Hy1, Hy2.
  change (53 - 1) with 52 in Hx1, Hy1.
  pose proof (Z_div_mod (Zpos mx * 2 ^ 53) (Zpos my) ltac:(lia)) as Hdm.
  destruct (Z.div_eucl (Zpos mx * 2 ^ 53) (Zpos my)) as [q r].
  destruct Hdm as [Hq Hr].
  assert (Hq1 : 2 ^ 52 <= q).
  { assert (2 ^ 52 * Zpos my < (q + 1) * Zpos my); [|nia].
    change (2 ^ 53) with (2 * 2 ^ 52) in *. nia. }
  assert (Hq2 : q < 2 ^ 54).
  { assert (q * Zpos my < 2 ^ 54 * Zpos my); [|nia].
    change (2 ^ 54) with (2 * 2 ^ 53). change (2 ^ 52) with (2 ^ 52) in *. nia. }
  pose proof (Zdigits2_ge_pow q 52 ltac:(lia) Hq1) as Hd1.
  pose proof (Zdigits2_le_pow q 54 ltac:(lia) ltac:(lia)) as Hd2.
  pose proof (powerRZ_2_pos ex). pose proof (powerRZ_2_pos ey).
  pose proof (powerRZ_2_pos (ex - ey - 53)) as Hpe.
  assert (HmyR : (0 < IZR (Zpos my))%R) by (apply IZR_lt; lia).
  assert (Hv : (IZR (Zpos mx) * powerRZ 2 ex / (IZR (Zpos my) * powerRZ 2 ey)
                = IZR (Zpos mx * 2 ^ 53) / IZR (Zpos my) * powerRZ 2 (ex - ey - 53))%R).
  { rewrite mult_IZR, <- (powerRZ_2_IZR 53) by lia.
    replace (ex - ey - 53) with (ex + (- ey + - 53)) by lia.
    rewrite !powerRZ_2_split.
    assert (He1 : (powerRZ 2 ey * powerRZ 2 (- ey) = 1)%R).
    { rewrite <- powerRZ_2_split. replace (ey + - ey) with 0 by lia. done. }
    assert (He2 : (powerRZ 2 53 * powerRZ 2 (- 53) = 1)%R).
    { rewrite <- powerRZ_2_split. done. }
    pose proof (powerRZ_2_pos 53) as Hp53.
    assert (Ha : (powerRZ 2 (- ey) = / powerRZ 2 ey)%R).
    { apply Rmult_eq_reg_l with (powerRZ 2 ey); [|lra]. rewrite He1. field. lra. }
    assert (Hb : (powerRZ 2 (- 53) = / powerRZ 2 53)%R).
    { apply Rmult_eq_reg_l with (powerRZ 2 53); [|lra]. rewrite He2. field. lra. }
    rewrite Ha, Hb. field. lra. }
  assert (Hquot : (IZR q <= IZR (Zpos mx * 2 ^ 53) / IZR (Zpos my) < IZR q + 1)%R).
  { rewrite Hq, plus_IZR, mult_IZR. split.
    - apply Rle_trans with (IZR (Zpos my) * IZR q / IZR (Zpos my))%R.
      + right. field. lra.
      + unfold Rdiv. apply Rmult_le_compat_r.
        * left. by apply Rinv_0_lt_compat.
        * assert (0 <= IZR r)%R by (apply IZR_le; lia). lra.
    - apply Rlt_le_trans with ((IZR (Zpos my) * IZR q + IZR (Zpos my)) / IZR (Zpos my))%R.
      + unfold Rdiv. apply Rmult_lt_compat_r.
        * by apply Rinv_0_lt_compat.
        * assert (IZR r < IZR (Zpos my))%R by (apply IZR_lt; lia). lra.
      + right. field. lra. }
  destruct (binary_round_aux_rel false q (ex - ey - 53) (new_location (Zpos my) r)
              (IZR (Zpos mx) * powerRZ 2 ex / (IZR (Zpos my) * powerRZ 2 ey))%R)
    as (m & e & -> & Hm & He & Hvv); try lia.
  { rewrite Hv. split.
    - apply Rmult_le_compat_r; lra.
    - apply Rmult_lt_compat_r; lra. }
  exists m, e. split; [done|]. split; [done|]. exact Hvv.
Qed.

(** *** The quotients of the progress renderer *)

Lemma exact_pos (m : positive) (e : Z) :
  0 < fst (Float.exact m e) /\ 0 < snd (Float.exact m e).
Proof.
  unfold Float.exact. destruct (0 <=? e) eqn:He; simpl.
  - apply Z.leb_le in He. pose proof (Z.pow_pos_nonneg 2 e). lia.
  - apply Z.leb_gt in He. pose proof (Z.pow_pos_nonneg 2 (- e)). lia.
Qed.

Lemma eps_small : (0 < eps <= 1 / 1000000)%R.
Proof.
  unfold eps. pose proof (powerRZ_2_pos (-52)) as Hp. split; [done|].
  assert (Hone : (powerRZ 2 (-52) * IZR (2 ^ 52) = 1)%R).
  { rewrite <- (powerRZ_2_IZR 52) by lia. rewrite <- powerRZ_2_split. done. }
  assert (Hbig : (1000000 <= IZR (2 ^ 52))%R) by (apply IZR_le; lia).
  nra.
Qed.

Lemma exact_val (m : positive) (e : Z) :
  (IZR (fst (Float.exact m e))
   = IZR (Zpos m) * powerRZ 2 e * IZR (snd (Float.exact m e)))%R
  /\ 0 < snd (Float.exact m e).
Proof.
  unfold Float.exact. destruct (0 <=? e) eqn:He; simpl fst; simpl snd.
  - apply Z.leb_le in He. split; [|lia].
    rewrite mult_IZR, (powerRZ_2_IZR e He). lra.
  - apply Z.leb_gt in He. split; [|apply Z.pow_pos_nonneg; lia].
    rewrite <- (powerRZ_2_IZR (- e)) by lia.
    rewrite Rmult_assoc, <- powerRZ_2_split.
    replace (e + - e) with 0 by lia. simpl. lra.
Qed.

Lemma hundred_eq : of_decimal 100 0 = S754_finite false 7036874417766400 (-46).
Proof. vm_compute. reflexivity. Qed.

Lemma hundred_val : (IZR (Zpos 7036874417766400) * powerRZ 2 (-46) = 100)%R.
Proof.
  change (Zpos 7036874417766400) with (100 * 2 ^ 46).
  rewrite mult_IZR, <- (powerRZ_2_IZR 46) by lia.
  rewrite Rmult_assoc, <- powerRZ_2_split. simpl. lra.
Qed.

Lemma Zdigits2_lt_pow_pos (z k : Z) : 0 <= k -> 0 <= z < 2 ^ k -> Zdigits2 z <= k.
Proof. intros. by apply Zdigits2_le_pow. Qed.

Lemma of_int_pos (z : Z) (m : positive) (e : Z) :
  of_Z z = S754_finite false m e -> of_int z = inr (S754_finite false m e).
Proof. unfold of_int. by intros ->. Qed.

Lemma div_le_bound (a b c : R) : (0 < b -> a <= c * b -> a / b <= c)%R.
Proof.
  intros Hb H. apply Rmult_le_reg_r with b; [done|].
  replace (a / b * b)%R with a by (field; lra). done.
Qed.



Lemma eps_scaled (W : Z) : 0 <= W < 2 ^ 20 -> (IZR W * eps <= 1 / 1000000)%R.
Proof.
  intros HW. unfold eps. pose proof (powerRZ_2_pos (-52)) as Hp.
  assert (Hone : (powerRZ 2 (-52) * IZR (2 ^ 52) = 1)%R).
  { rewrite <- (powerRZ_2_IZR 52) by lia. rewrite <- powerRZ_2_split. done. }
  assert (HWR : (0 <= IZR W <= IZR (2 ^ 20))%R).
  { split; apply IZR_le; lia. }
  change (2 ^ 52) with 4503599627370496 in Hone.
  change (2 ^ 20) with 1048576 in HWR.
  nra.
Qed.


End FloatFacts.

(** ** The progress renderer *)

Import FloatFacts.













(** ** Further properties of the download routines *)


(** X2.  Adding files to the directory never makes the allocator return a
    smaller counter. *)
Theorem unique_name_monotone (base subtype media_type target : string)
    (w w' : world) :
  fs w ⊆ fs w' ->
  exists c c' : nat,
    _unique_name base subtype media_type target w
      = (inr (file_name base media_type c), w)
    /\ _unique_name base subtype media_type target w'
       = (inr (file_name base media_type c'), w')
    /\ (c <= c')%nat.
Proof.
  intros Hsub.
  destruct (unique_name_spec base subtype media_type target (fs w))
    as (c & _ & Hc & Hbelow).
  destruct (unique_name_spec base subtype media_type target (fs w'))
    as (c' & _ & Hc' & Hbelow').
  exists c, c'.
  split; [by apply _unique_name_at|]. split; [by apply _unique_name_at|].
  destruct (Nat.le_gt_cases c c') as [|Hlt]; [done|].
  exfalso. apply Hc'. apply Hsub. by apply Hbelow.
Qed.

Lemma unique_name_monotone_witness :
  exists c c' : nat,
    _unique_name "clip" "mp4" "video" "/dl" (mkWorld ∅ [])
      = (inr (file_name "clip" "video" c), mkWorld ∅ [])
    /\ _unique_name "clip" "mp4" "video" "/dl"
         (mkWorld {[ "/dl/clip_video_0.mp4" ]} [])
       = (inr (file_name "clip" "video" c'),
          mkWorld {[ "/dl/clip_video_0.mp4" ]} [])
    /\ (c <= c')%nat.
Proof.
  apply (unique_name_monotone "clip" "mp4" "video" "/dl"
           (mkWorld ∅ []) (mkWorld {[ "/dl/clip_video_0.mp4" ]} [])).
  simpl. apply empty_subseteq.
Defined.

(** ** A base name that is an absolute path *)

Lemma starts_with_sep_append (s t : string) :
  starts_with_sep s = true -> starts_with_sep (s +:+ t) = true.
Proof. by destruct s. Qed.

Lemma file_path_absolute (base subtype media_type target : string) (c : nat) :
  starts_with_sep base = true ->
  file_path base subtype media_type target c
  = file_name base media_type c +:+ "." +:+ subtype.
Proof.
  intros Hb. unfold file_path, os_path_join.
  rewrite starts_with_sep_append; [done|].
  unfold file_name. by apply starts_with_sep_append.
Qed.

Lemma unique_name_loop_ext (fuel : nat) (base subtype media_type target target' : string)
    (d : gset string) (c0 : nat) :
  (forall c, file_path base subtype media_type target c
             = file_path base subtype media_type target' c) ->
  unique_name_loop fuel base subtype media_type target d c0
  = unique_name_loop fuel base subtype media_type target' d c0.
Proof.
  intros Hp. revert c0. induction fuel as [|fuel IH]; intros c0; [done|].
  simpl. by rewrite Hp, IH.
Qed.

(** X3.  When the base name starts with "/", [os.path.join] drops the
    target directory: the allocator probes "{base}_{kind}_{c}.{subtype}" as
    an absolute path, and its result is the same for every target
    directory. *)
Theorem unique_name_absolute_base (base subtype media_type target target' : string)
    (w : world) :
  starts_with_sep base = true ->
  (forall c, file_path base subtype media_type target c
             = file_name base media_type c +:+ "." +:+ subtype)
  /\ _unique_name base subtype media_type target w
     = _unique_name base subtype media_type target' w.
Proof.
  intros Hb. split; [intros c; by apply file_path_absolute|].
  unfold _unique_name, unique_name, bind, get_fs.
  rewrite (unique_name_loop_ext _ _ _ _ target target'); [done|].
  intros c. by rewrite !file_path_absolute.
Qed.

Lemma unique_name_absolute_base_witness :
  (forall c, file_path "/tmp/clip" "mp4" "video" "/dl" c
             = file_name "/tmp/clip" "video" c +:+ "." +:+ "mp4")
  /\ _unique_name "/tmp/clip" "mp4" "video" "/dl" (mkWorld ∅ [])
     = _unique_name "/tmp/clip" "mp4" "video" "/home/user" (mkWorld ∅ []).
Proof.
  apply (unique_name_absolute_base "/tmp/clip" "mp4" "video" "/dl" "/home/user"
           (mkWorld ∅ [])).
  reflexivity.
Defined.

(** ** The dual-stream routine *)

(** X4.  [ffmpeg_process] without a resolution does exactly what it does
    with "best": the not-found message, the only place where the two
    differ, is never reached in that branch. *)
Theorem ffmpeg_process_default_is_best (E : Env) (url : string)
    (target : option string) (w : world) :
  ffmpeg_process E url None target w = ffmpeg_process E url (Some "best") target w.
Proof.
  unfold ffmpeg_process, ffmpeg_video_stream.
  change (String.eqb "best" "best") with true. cbv iota.
  unfold best_video_stream.
  destruct (Query.last (Query.order_by resolution
              (Query.filter non_progressive (streams (YouTube E url)))))
    as [h|]; [|done].
  destruct (Query.last (Query.order_by resolution
              (Query.filter non_progressive_mp4 (streams (YouTube E url)))))
    as [m|]; [|done].
  by destruct (decide (resolution h = resolution m)).
Qed.

(** X5.  When a video stream is selected and no non-progressive stream has
    a bitrate, [ffmpeg_process] raises [AttributeError] at line 151
    ([audio_stream] is [None]) before anything is printed, transferred or
    created. *)
Theorem ffmpeg_process_without_audio_raises (E : Env) (url : string)
    (res target : option string) (v : Stream) (w : world) :
  ffmpeg_video_stream (streams (YouTube E url)) res = inr (Some v) ->
  ffmpeg_audio_stream (streams (YouTube E url)) = None ->
  ffmpeg_process E url res target w = (inl AttributeError, w).
Proof.
  intros Hv Ha.
  set (T := title (YouTube E url)). set (tgt := str_or target (cwd E)).
  destruct (unique_name_spec T "mp4" "video" tgt (fs w)) as (cv & _ & Hcv & Hbv).
  destruct (unique_name_spec T "mp4" "audio" tgt (fs w)) as (ca & _ & Hca & Hba).
  unfold ffmpeg_process. fold T tgt. rewrite Hv, Ha. simpl lift.
  unfold bind at 1. unfold ret at 1.
  unfold bind at 1. rewrite (_unique_name_at _ _ _ _ _ cv Hcv Hbv).
  unfold bind at 1. rewrite (_unique_name_at _ _ _ _ _ ca Hca Hba).
  reflexivity.
Qed.

Lemma ffmpeg_process_without_audio_raises_witness :
  ffmpeg_process (Examples.env_of Examples.video_only_catalog 80) "u"
    (Some "1080p") (Some "/dl") Examples.empty_world
  = (inl AttributeError, Examples.empty_world).
Proof.
  apply (ffmpeg_process_without_audio_raises
           (Examples.env_of Examples.video_only_catalog 80) "u"
           (Some "1080p") (Some "/dl") Examples.v137 Examples.empty_world);
    reflexivity.
Defined.



(** ** Playlists and [main] *)

Lemma download_eq (E : Env) (s : Stream) (w : world) :
  download E s None None w
  = (inr tt, mkWorld ({[ default_path E s ]} ∪ fs w) (out w ++ [transfer_of E s])).
Proof. reflexivity. Qed.

Lemma for_each_app {A} (l1 l2 : list A) (body : A -> M unit) (w : world) :
  for_each (l1 ++ l2) body w = (for_each l1 body ;;; for_each l2 body) w.
Proof.
  revert w. induction l1 as [|x l1 IH]; intros w; [done|].
  simpl. unfold bind. destruct (body x w) as [[e|[]] w']; [done|].
  rewrite IH. unfold bind. done.
Qed.

Section Loops.

Variable E : Env.
Variable pickf : list Stream -> option Stream.

Local Abbreviation body :=
  (fun video : Video => attr_of (pickf (streams video)) (fun ys => download E ys None None)).

(** A loop over videos that all have a stream downloads one stream per
    video, in order, and removes no file. *)
Lemma for_each_downloads (pick : Video -> Stream) (vs : list Video) (w : world) :
  (forall v, v ∈ vs -> pickf (streams v) = Some (pick v)) ->
  exists d,
    for_each vs body w
    = (inr tt, mkWorld d (out w ++ ((fun v => transfer_of E (pick v)) <$> vs)))
    /\ fs w ⊆ d.
Proof.
  revert w. induction vs as [|x vs IH]; intros w Hall.
  - exists (fs w). split; [|done]. destruct w. simpl. unfold ret. by rewrite app_nil_r.
  - simpl for_each. unfold bind at 1.
    rewrite (Hall x) by (apply elem_of_cons; by left). simpl attr_of.
    rewrite download_eq.
    destruct (IH (mkWorld ({[ default_path E (pick x) ]} ∪ fs w)
                    (out w ++ [transfer_of E (pick x)]))) as (d & Hd & Hsub).
    { intros v Hv. apply Hall, elem_of_cons. by right. }
    exists d. split.
    + rewrite Hd. simpl. by rewrite <- app_assoc.
    + simpl in Hsub. etrans; [|exact Hsub]. apply union_subseteq_r.
Qed.

(** The loop stops at the first video without a stream. *)
Lemma for_each_stops (pick : Video -> Stream) (pre post : list Video) (bad : Video)
    (w : world) :
  (forall v, v ∈ pre -> pickf (streams v) = Some (pick v)) ->
  pickf (streams bad) = None ->
  exists d,
    for_each (pre ++ bad :: post) body w
    = (inl AttributeError,
       mkWorld d (out w ++ ((fun v => transfer_of E (pick v)) <$> pre))).
Proof.
  intros Hall Hbad. rewrite for_each_app. unfold bind at 1.
  destruct (for_each_downloads pick pre w Hall) as (d & -> & _).
  exists d. simpl for_each. unfold bind at 1. by rewrite Hbad.
Qed.

End Loops.


(** X8.  The playlist routines stop at the first video without a stream:
    [AttributeError] is raised, the videos before it have been downloaded,
    in order, and those after it are not. *)
Theorem playlist_stops_at_first_missing (E : Env) (audio : bool) (url : string)
    (pick : Video -> Stream) (pre post : list Video) (bad : Video) (w : world) :
  Playlist E url = (pre ++ bad :: post)%list ->
  (forall v, v ∈ pre -> picker E audio (streams v) = Some (pick v)) ->
  picker E audio (streams bad) = None ->
  fst (download_playlist E audio url w) = inl AttributeError
  /\ new_events (download_playlist E audio url) w
     = (fun v => transfer_of E (pick v)) <$> pre.
Proof.
  intros Hpl Hall Hbad.
  assert (H : exists d, download_playlist E audio url w
            = (inl AttributeError,
               mkWorld d (out w ++ ((fun v => transfer_of E (pick v)) <$> pre)))).
  { destruct audio; simpl in Hall, Hbad |- *;
      unfold download_playlist_audio, download_playlist_video; rewrite Hpl;
      destruct (for_each_stops E _ pick pre post bad w Hall Hbad) as (d & Hd);
      by exists d. }
  destruct H as (d & H). split; [by rewrite H|].
  by apply (new_events_app _ _ _ _ _ H).
Qed.


Lemma playlist_stops_at_first_missing_witness :
  fst (download_playlist (Samples.playlist_env [] Samples.three_videos) false "PL"
         Examples.empty_world) = inl AttributeError
  /\ new_events (download_playlist (Samples.playlist_env [] Samples.three_videos) false "PL")
       Examples.empty_world
     = [Transfer Examples.s22 "/home/user/clip.mp4"].
Proof.
  apply (playlist_stops_at_first_missing (Samples.playlist_env [] Samples.three_videos)
           false "PL" (fun _ => Examples.s22)
           [mkVideo "one" Examples.progressive_catalog]
           [mkVideo "three" Examples.progressive_catalog]
           (mkVideo "two" []) Examples.empty_world).
  - reflexivity.
  - intros v Hv. apply list_elem_of_singleton in Hv as ->. reflexivity.
  - reflexivity.
Defined.

(** X9.  When the video of [--url] has no stream of the wanted kind, [main]
    raises [AttributeError] after printing the title: nothing is
    downloaded, "URL processed successfully!" is not printed and the
    playlist branch is not run. *)
Theorem main_url_without_stream_raises (E : Env) (args : Args) (w : world) :
  is_set (a_url args) = true ->
  picker E (a_audio args) (streams (YouTube E (arg_value (a_url args)))) = None ->
  main E args w
  = (inl AttributeError,
     mkWorld (fs w) (out w ++ [line (title (YouTube E (arg_value (a_url args))))])).
Proof.
  intros Hurl Hnone. unfold main, main_url. rewrite Hurl.
  unfold picker in Hnone.
  destruct (a_audio args); unfold download_audio, download_video;
    unfold bind, print, emit; simpl; by rewrite Hnone.
Qed.

Lemma main_url_without_stream_raises_witness :
  main (Examples.env_of [] 80) (mkArgs (Some "u") (Some "PL") true) Examples.empty_world
  = (inl AttributeError, mkWorld ∅ [Stdout "clip
"]).
Proof.
  apply (main_url_without_stream_raises (Examples.env_of [] 80)
           (mkArgs (Some "u") (Some "PL") true) Examples.empty_world);
    reflexivity.
Defined.



(** ** Listings *)

Lemma for_each_print_map {A} (f : A -> string) (l : list A) (w : world) :
  for_each l (fun x => print (f x)) w
  = (inr tt, mkWorld (fs w) (out w ++ ((fun x => line (f x)) <$> l))).
Proof.
  revert w. induction l as [|x l IH]; intros w.
  - destruct w. simpl. unfold ret. by rewrite app_nil_r.
  - simpl. unfold bind. rewrite print_eq, IH. simpl. by rewrite <- app_assoc.
Qed.

(** X11.  [available_captions] prints the header and then one line per
    caption, " - {code}: {name}", in the order of the list (the header
    alone for an empty list); it neither raises nor touches the file
    system. *)
Theorem available_captions_lists_each_once (captions : list Captions.Caption)
    (w : world) :
  available_captions captions w
  = (inr tt,
     mkWorld (fs w)
       (out w ++ line "Available captions:" :: (caption_line <$> captions))).
Proof.
  unfold available_captions, bind. rewrite print_eq, for_each_print_map. simpl.
  by rewrite <- app_assoc.
Qed.

(** X12.  [display_streams] prints the header with the title and then one
    line per stream of the catalog, in catalog order; it neither raises nor
    touches the file system. *)
Theorem display_streams_lists_catalog (E : Env) (str : Stream -> string)
    (url : string) (w : world) :
  display_streams E str url w
  = (inr tt,
     mkWorld (fs w)
       (out w ++ line ("Available streams for " +:+ title (YouTube E url) +:+ ":")
               :: (stream_line str <$> streams (YouTube E url)))).
Proof.
  unfold display_streams, bind. rewrite print_eq, for_each_print_map. simpl.
  by rewrite <- app_assoc.
Qed.

(** X13.  [download_by_itag] reports "No stream found with itag ..." when
    no stream of the catalog has the itag, and nothing else happens;
    otherwise it announces the download and downloads a stream of the
    catalog that has the itag (the one stream, where itags are unique). *)
Theorem download_by_itag_outcome (E : Env) (url : string) (i : Z)
    (target : option string) (w : world) :
  ((forall s, s ∈ streams (YouTube E url) -> itag s <> i)
   /\ download_by_itag E url i target w
      = (inr tt,
         mkWorld (fs w)
           (out w ++ [line ("No stream found with itag " +:+ pretty i +:+ ".")])))
  \/ (exists s, s ∈ streams (YouTube E url) /\ itag s = i
        /\ download_by_itag E url i target w
           = (print ("Downloading stream with itag " +:+ pretty i +:+ "...") ;;;
              _download E s target None) w).
Proof.
  unfold download_by_itag.
  destruct (Query.get_by_itag i (streams (YouTube E url))) as [s|] eqn:Hs.
  - right. exists s. unfold Query.get_by_itag in Hs.
    apply find_some in Hs as [Hin Hi].
    split; [by apply list_elem_of_In|]. split; [by apply Z.eqb_eq|done].
  - left. split; [|apply print_eq].
    intros s Hin. unfold Query.get_by_itag in Hs.
    apply list_elem_of_In in Hin.
    pose proof (find_none _ _ Hs s Hin) as Hne. simpl in Hne.
    by apply Z.eqb_neq.
Qed.


(** ** The progress bar at its ends *)

Lemma default_scale_eq :
  default_scale = S754_finite false 4953959590107546 (-53).
Proof. vm_compute. reflexivity. Qed.

(** A mantissa of 53 digits is kept as it is. *)
Lemma binary_round_aux_exact (sx : bool) (m : positive) (ex : Z) :
  Zdigits2 (Zpos m) = 53 -> -1074 <= ex <= 971 ->
  binary_round_aux Float.prec Float.emax sx (Zpos m) ex loc_Exact
  = S754_finite sx m ex.
Proof.
  intros Hd Hex.
  assert (Hf : fexp Float.prec Float.emax (Zdigits2 (Zpos m) + ex) - ex = 0).
  { rewrite Hd. unfold fexp, SpecFloat.emin, Float.prec, Float.emax. lia. }
  unfold binary_round_aux, shr_fexp. rewrite Hf. simpl.
  change (Z.pos (digits2_pos m)) with (Zdigits2 (Zpos m)).
  rewrite Hf. simpl.
  replace (ex <=? Float.emax - Float.prec) with true; [done|].
  symmetry. apply Z.leb_le. unfold Float.emax, Float.prec. lia.
Qed.

(** Integers below [2^52] convert to floats exactly. *)
Lemma of_Z_exact (c : Z) :
  0 < c -> Zdigits2 c < 53 ->
  exists m : positive,
    Float.of_Z c = S754_finite false m (Zdigits2 c - 53)
    /\ Zpos m = c * 2 ^ (53 - Zdigits2 c)
    /\ Zdigits2 (Zpos m) = 53.
Proof.
  intros Hc Hd. destruct c as [|p|p]; try lia.
  unfold Float.of_Z, binary_normalize, binary_round.
  change (Zpos (digits2_pos p)) with (Zdigits2 (Zpos p)).
  set (d := Zdigits2 (Zpos p)) in *.
  pose proof (Zdigits2_pos (Zpos p) ltac:(lia)) as Hd0. fold d in Hd0.
  rewrite Z.add_0_r, (fexp_normal d) by lia.
  unfold shl_align.
  destruct (d - 53 - 0) as [|k|k] eqn:Hk; try lia.
  assert (Hdz : Zdigits2 (Zpos (Pos.iter xO p k)) = 53).
  { rewrite iter_xO_Z, Zdigits2_mul_pow by lia. fold d. lia. }
  exists (Pos.iter xO p k). split.
  - apply binary_round_aux_exact; [done|lia].
  - split; [|done]. rewrite iter_xO_Z. f_equal. f_equal. lia.
Qed.

Lemma bar_width_floor (c : Z) :
  0 <= c < 2 ^ 32 -> bar_width c default_scale = inr (55 * c / 100).
Proof.
  intros [Hc0 Hc].
  destruct (Z.eq_dec c 0) as [->|Hne]; [vm_compute; reflexivity|].
  assert (Hpos : 0 < c) by lia.
  pose proof (Zdigits2_pos c Hpos) as Hd0.
  pose proof (Zdigits2_le_pow c 32 ltac:(lia) ltac:(lia)) as Hd32.
  destruct (Zdigits2_bounds c Hpos) as [_ Hcd].
  destruct (of_Z_exact c Hpos ltac:(lia)) as (mC & HC & HmC & HdC).
  set (d := Zdigits2 c) in *.
  set (A := 2 ^ (53 - d)) in *.
  assert (HA : 2 ^ 21 <= A) by (apply Z.pow_le_mono_r; lia).
  assert (HcA : c * A < 2 ^ 53).
  { replace (2 ^ 53) with (2 ^ d * A).
    - apply Z.mul_lt_mono_pos_r; lia.
    - unfold A. rewrite <- Z.pow_add_r by lia. f_equal. lia. }
  rewrite default_scale_eq.
  unfold bar_width, Float.of_int. rewrite HC. unfold ebind.
  unfold Float.mul, SFmul. simpl xorb.
  set (mS := 4953959590107546%positive).
  set (mx := Zpos (mC * mS)).
  assert (Hmx : mx = c * A * Zpos mS) by (unfold mx; rewrite Pos2Z.inj_mul; lia).
  destruct (Zdigits2_bounds (Zpos mC) ltac:(lia)) as [HC1 HC2].
  rewrite HdC in HC1, HC2. change (53 - 1) with 52 in HC1.
  assert (Hp1 : 2 ^ 104 <= mx).
  { unfold mx. rewrite Pos2Z.inj_mul. change (2 ^ 104) with (2 ^ 52 * 2 ^ 52).
    apply Z.mul_le_mono_nonneg; unfold mS; lia. }
  assert (Hp2 : mx < 2 ^ 106).
  { unfold mx. rewrite Pos2Z.inj_mul. change (2 ^ 106) with (2 ^ 53 * 2 ^ 53).
    apply Z.mul_lt_mono_nonneg; unfold mS; lia. }
  pose proof (Zdigits2_ge_pow mx 104 ltac:(lia) Hp1) as Hs1.
  pose proof (Zdigits2_le_pow mx 106 ltac:(lia) ltac:(lia)) as Hs2.
  destruct (binary_round_aux_normal_strong false mx (d - 53 + -53) loc_Exact)
    as (m & e & m1 & -> & Hdm & He & _ & Hm1 & Hval); try lia.
  set (s := Zdigits2 mx - 53) in *.
  set (e1 := Zdigits2 mx + (d - 53 + -53) - 53) in *.
  assert (He0 : e < 0) by (unfold e1 in *; lia).
  unfold Float.trunc, Float.exact.
  replace (0 <=? e) with false by (symmetry; apply Z.leb_gt; lia).
  unfold Float.sgn. f_equal.
  set (N := 55 * c / 100).
  pose proof (Z.div_mod (55 * c) 100 ltac:(lia)) as HN.
  pose proof (Z.mod_pos_bound (55 * c) 100 ltac:(lia)) as HNr.
  fold N in HN.
  set (G := 2 ^ (- e1)).
  assert (HG : 2 ^ (- e) * 2 ^ (e - e1) = G).
  { unfold G. rewrite <- Z.pow_add_r by lia. f_equal. lia. }
  assert (Hk : 0 < 2 ^ (e - e1)) by (apply Z.pow_pos_nonneg; lia).
  assert (Hdiv : Zpos m / 2 ^ (- e) = m1 / G).
  { rewrite <- Hval, <- HG. rewrite Z.div_mul_cancel_r; [done| |lia].
    pose proof (Z.pow_pos_nonneg 2 (- e)). lia. }
  rewrite Hdiv.
  set (B := 2 ^ s) in *.
  assert (HB : 0 < B) by (apply Z.pow_pos_nonneg; unfold s; lia).
  assert (HGB : G * B = 2 ^ 53 * A).
  { unfold G, B, A. rewrite <- !Z.pow_add_r by (unfold e1, s; lia).
    f_equal. unfold e1, s. lia. }
  assert (HBle : B <= 2 ^ 53) by (apply Z.pow_le_mono_r; unfold s; lia).
  assert (HGpos : 0 < G) by (apply Z.pow_pos_nonneg; unfold e1; lia).
  pose proof (Z.mul_div_le mx B HB) as Hlo.
  pose proof (Z.mul_succ_div_gt mx B HB) as Hhi.
  set (m' := mx / B) in *.
  assert (HS : 20 * Zpos mS = 11 * 2 ^ 53 + 8) by (unfold mS; reflexivity).
  assert (HN1 : 20 * N <= 11 * c) by lia.
  assert (HN2 : 11 * c <= 20 * N + 19) by lia.
  assert (HcS : N * 2 ^ 53 <= c * Zpos mS) by lia.
  assert (HcS2 : 20 * (c * Zpos mS) <= (20 * N + 19) * 2 ^ 53 + 8 * c) by lia.
  assert (Hlow : N * G <= m').
  { apply Z.div_le_lower_bound; [done|].
    replace (B * (N * G)) with (N * (G * B)) by ring. rewrite HGB, Hmx.
    replace (N * (2 ^ 53 * A)) with ((N * 2 ^ 53) * A) by ring.
    replace (c * A * Zpos mS) with ((c * Zpos mS) * A) by ring.
    apply Z.mul_le_mono_nonneg_r; lia. }
  assert (Hupp : m' + 1 < (N + 1) * G).
  { destruct (Z_lt_le_dec (m' + 1) ((N + 1) * G)) as [|Hge]; [done|exfalso].
    assert (H1 : ((N + 1) * G - 1) * B <= mx).
    { apply Z.le_trans with (B * m'); [|exact Hlo].
      rewrite (Z.mul_comm B m'). apply Z.mul_le_mono_nonneg_r; lia. }
    replace (((N + 1) * G - 1) * B) with ((N + 1) * (G * B) - B) in H1 by ring.
    rewrite HGB, Hmx in H1.
    assert (H2 : 20 * (c * A * Zpos mS) <= ((20 * N + 19) * 2 ^ 53 + 8 * c) * A).
    { replace (20 * (c * A * Zpos mS)) with (20 * (c * Zpos mS) * A) by ring.
      apply Z.mul_le_mono_nonneg_r; lia. }
    change (2 ^ 53) with 9007199254740992 in *.
    change (2 ^ 21) with 2097152 in *.
    nia. }
  symmetry. apply (Z.div_unique m1 G N (m1 - N * G)); [left|]; nia.
Qed.

Lemma half_even_eq (n d b : Z) :
  0 <= n -> 0 < d -> (2 * b - 1) * d < 2 * n < (2 * b + 1) * d ->
  Float.half_even n d = b.
Proof.
  intros Hn Hd [Hlo Hhi]. unfold Float.half_even.
  pose proof (Z.div_mod n d ltac:(lia)) as Hdm.
  pose proof (Z.mod_pos_bound n d Hd) as Hm.
  set (q := n / d) in *. set (r := n mod d) in *. clearbody q r.
  assert (Hlt : forall x y, d * x < d * y -> x < y).
  { intros x y. apply Z.mul_lt_mono_pos_l. done. }
  replace ((2 * b - 1) * d) with (2 * (d * b) - d) in Hlo by ring.
  replace ((2 * b + 1) * d) with (2 * (d * b) + d) in Hhi by ring.
  destruct (2 * r ?= d) eqn:Hc.
  - apply Z.compare_eq in Hc. exfalso.
    assert (A1 : b - 1 < q).
    { apply Hlt. replace (d * (b - 1)) with (d * b - d) by ring. lia. }
    assert (A2 : q < b) by (apply Hlt; lia).
    lia.
  - rewrite Z.compare_lt_iff in Hc.
    assert (A1 : b - 1 < q).
    { apply Hlt. replace (d * (b - 1)) with (d * b - d) by ring. lia. }
    assert (A2 : q < b + 1).
    { apply Hlt. replace (d * (b + 1)) with (d * b + d) by ring. lia. }
    lia.
  - rewrite Z.compare_gt_iff in Hc.
    assert (A1 : q < b) by (apply Hlt; lia).
    assert (A2 : b < q + 2).
    { apply Hlt. replace (d * (q + 2)) with (d * q + 2 * d) by ring. lia. }
    lia.
Qed.

(** When every byte has arrived the whole bar is filled. *)
Lemma bar_filled_full (W t : Z) :
  0 < t < 2 ^ 1000 -> 0 <= W < 2 ^ 20 -> bar_filled W t t = inr W.
Proof.
  intros Ht HW.
  pose proof (Zdigits2_pos t ltac:(lia)) as Hdt0.
  pose proof (Zdigits2_lt_pow_pos t 1000 ltac:(lia) ltac:(lia)) as Hdt.
  destruct (of_Z_rel t ltac:(lia) ltac:(lia)) as (mT & eT & HT & HmT & HeT & HvT).
  unfold bar_filled. rewrite (of_int_pos _ _ _ HT).
  destruct (Z.eq_dec W 0) as [->|HW0]; [reflexivity|].
  assert (Hp : 0 < W * t) by nia.
  assert (Hpb : W * t < 2 ^ 1020).
  { change (2 ^ 1020) with (2 ^ 20 * 2 ^ 1000). nia. }
  assert (Hpt : t <= W * t) by nia.
  pose proof (Zdigits2_pos (W * t) Hp) as HdP0.
  pose proof (Zdigits2_lt_pow_pos (W * t) 1020 ltac:(lia) ltac:(lia)) as HdP.
  pose proof (Zdigits2_mono t (W * t) ltac:(lia)) as Hdmono.
  destruct (of_Z_rel (W * t) Hp ltac:(lia)) as (mP & eP & HP & HmP & HeP & HvP).
  rewrite (of_int_pos _ _ _ HP). unfold ebind at 1 2.
  unfold Float.div, Float.is_zero, ebind.
  destruct (SFdiv_rel mP mT eP eT)
    as (mq & eq & Hq & Hmq & Hvq); [done|done|lia|lia|].
  fold Float.prec Float.emax in Hq. rewrite Hq. unfold Float.round.
  destruct (exact_val mq eq) as [Hn Hd].
  destruct (exact_pos mq eq) as [Hn0 _].
  destruct (Float.exact mq eq) as [n d]. simpl fst in Hn, Hn0. simpl snd in Hn, Hd.
  unfold Float.sgn. f_equal.
  assert (HdR : (0 < IZR d)%R) by (apply IZR_lt; lia).
  set (Q := (IZR (Zpos mq) * powerRZ 2 eq)%R) in *.
  set (P := (IZR (Zpos mP) * powerRZ 2 eP)%R) in *.
  set (T := (IZR (Zpos mT) * powerRZ 2 eT)%R) in *.
  pose proof eps_small as [He0 He1].
  pose proof (eps_scaled W HW) as HWe.
  assert (HtR : (0 < IZR t)%R) by (apply IZR_lt; lia).
  assert (HWR : (1 <= IZR W)%R) by (apply IZR_le; lia).
  rewrite mult_IZR in HvP.
  assert (HT0 : (0 < T)%R) by nra.
  assert (HTinv : (0 < / T)%R) by (by apply Rinv_0_lt_compat).
  assert (HWt : (0 < IZR W * IZR t)%R) by nra.
  (* the quotient [P / T] is within [W * (1 ± 3 eps)] *)
  assert (HPTu : (P / T <= IZR W * (1 + 3 * eps))%R).
  { apply div_le_bound; [done|].
    apply Rle_trans with ((1 + eps) * (IZR W * IZR t))%R; [lra|].
    apply Rle_trans with (IZR W * (1 + 3 * eps) * ((1 - eps) * IZR t))%R; [|
      apply Rmult_le_compat_l; [nra|lra]].
    replace (IZR W * (1 + 3 * eps) * ((1 - eps) * IZR t))%R
      with ((1 + 3 * eps) * (1 - eps) * (IZR W * IZR t))%R by ring.
    apply Rmult_le_compat_r; [lra|]. nra. }
  assert (HPTl : (IZR W * (1 - 3 * eps) <= P / T)%R).
  { apply Rmult_le_reg_r with T; [done|].
    replace (P / T * T)%R with P by (field; lra).
    apply Rle_trans with ((1 - eps) * (IZR W * IZR t))%R; [|lra].
    apply Rle_trans with (IZR W * (1 - 3 * eps) * ((1 + eps) * IZR t))%R.
    - apply Rmult_le_compat_l; [nra|lra].
    - replace (IZR W * (1 - 3 * eps) * ((1 + eps) * IZR t))%R
        with ((1 - 3 * eps) * (1 + eps) * (IZR W * IZR t))%R by ring.
      apply Rmult_le_compat_r; [lra|]. nra. }
  assert (HPT0 : (0 <= P / T)%R) by nra.
  assert (HQu : (Q <= IZR W * (1 + 3 * eps) * (1 + eps))%R).
  { apply Rle_trans with ((1 + eps) * (P / T))%R; [unfold Rdiv in *; lra|]. nra. }
  assert (HQl : (IZR W * (1 - 3 * eps) * (1 - eps) <= Q)%R).
  { apply Rle_trans with ((1 - eps) * (P / T))%R; [|unfold Rdiv in *; lra]. nra. }
  assert (Hwe : (0 <= IZR W * eps * eps <= 1 / 1000000)%R) by nra.
  assert (HQ1 : (IZR W - 1 / 2 < Q)%R).
  { apply Rlt_le_trans with (IZR W * (1 - 3 * eps) * (1 - eps))%R; [|done].
    replace (IZR W * (1 - 3 * eps) * (1 - eps))%R
      with (IZR W - 4 * (IZR W * eps) + 3 * (IZR W * eps * eps))%R by ring.
    lra. }
  assert (HQ2 : (Q < IZR W + 1 / 2)%R).
  { apply Rle_lt_trans with (IZR W * (1 + 3 * eps) * (1 + eps))%R; [done|].
    replace (IZR W * (1 + 3 * eps) * (1 + eps))%R
      with (IZR W + 4 * (IZR W * eps) + 3 * (IZR W * eps * eps))%R by ring.
    lra. }
  apply half_even_eq; [lia|done|].
  split; apply lt_IZR;
    repeat (rewrite mult_IZR || rewrite minus_IZR || rewrite plus_IZR);
    rewrite Hn; nra.
Qed.

(** When every byte has arrived the percentage is 100.0. *)
Lemma bar_percent_full (t : Z) :
  0 < t < 2 ^ 1000 -> bar_percent t t = inr (tenths 1000).
Proof.
  intros Ht.
  pose proof (Zdigits2_pos t ltac:(lia)) as Hdt0.
  pose proof (Zdigits2_lt_pow_pos t 1000 ltac:(lia) ltac:(lia)) as Hdt.
  destruct (of_Z_rel t ltac:(lia) ltac:(lia)) as (mT & eT & HT & HmT & HeT & HvT).
  unfold bar_percent. rewrite (of_int_pos _ _ _ HT).
  unfold ebind at 1 2. rewrite hundred_eq. unfold Float.mul.
  destruct (SFmul_rel 7036874417766400 mT (-46) eT)
    as (mP & eP & -> & HmP & HeP & HvP); [done|done|lia|lia|].
  unfold Float.div, Float.is_zero, ebind.
  destruct (SFdiv_rel mP mT eP eT)
    as (mq & eq & Hq & Hmq & Hvq); [done|done|lia|lia|].
  fold Float.prec Float.emax in Hq. rewrite Hq. f_equal.
  unfold Float.round1.
  destruct (exact_val mq eq) as [Hn Hd].
  destruct (exact_pos mq eq) as [Hn0 _].
  destruct (Float.exact mq eq) as [n d]. simpl fst in Hn, Hn0. simpl snd in Hn, Hd.
  assert (HdR : (0 < IZR d)%R) by (apply IZR_lt; lia).
  rewrite hundred_val in HvP.
  set (Q := (IZR (Zpos mq) * powerRZ 2 eq)%R) in *.
  set (P := (IZR (Zpos mP) * powerRZ 2 eP)%R) in *.
  set (T := (IZR (Zpos mT) * powerRZ 2 eT)%R) in *.
  pose proof eps_small as [He0 He1].
  assert (HtR : (0 < IZR t)%R) by (apply IZR_lt; lia).
  assert (HT0 : (0 < T)%R) by nra.
  assert (HPTu : (P / T <= 100 * (1 + eps))%R).
  { apply div_le_bound; [done|]. lra. }
  assert (HPTl : (100 * (1 - eps) <= P / T)%R).
  { apply Rmult_le_reg_r with T; [done|].
    replace (P / T * T)%R with P by (field; lra). lra. }
  assert (HQ1 : (1999 / 20 < Q)%R).
  { apply Rlt_le_trans with ((1 - eps) * (100 * (1 - eps)))%R; [nra|].
    apply Rle_trans with ((1 - eps) * (P / T))%R; [|unfold Rdiv in *; lra].
    apply Rmult_le_compat_l; lra. }
  assert (HQ2 : (Q < 2001 / 20)%R).
  { apply Rle_lt_trans with ((1 + eps) * (100 * (1 + eps)))%R; [|nra].
    apply Rle_trans with ((1 + eps) * (P / T))%R; [unfold Rdiv in *; lra|].
    apply Rmult_le_compat_l; lra. }
  rewrite (half_even_eq (10 * n) d 1000); [done|lia|done|].
  split; apply lt_IZR;
    repeat (rewrite mult_IZR || rewrite minus_IZR || rewrite plus_IZR);
    rewrite Hn; nra.
Qed.



(** X14.  When no byte remains, [on_progress] writes a bar that is filled
    over its whole width and the percentage "100.0%", for every file size
    below 2^1000 and every terminal width below 2^20. *)
Theorem on_progress_at_completion (E : Env) (stream : Stream) (w : world) :
  0 < filesize stream < 2 ^ 1000 ->
  0 <= terminal_columns E < 2 ^ 20 ->
  on_progress E stream 0 w
  = (inr tt,
     mkWorld (fs w)
       (out w ++ [Stdout (progress_line (55 * terminal_columns E / 100)
                            (55 * terminal_columns E / 100) "100.0")])).
Proof.
  intros Ht Hc.
  assert (Hbw : bar_width (terminal_columns E) default_scale
                = inr (55 * terminal_columns E / 100)).
  { apply bar_width_floor. lia. }
  assert (HW : 0 <= 55 * terminal_columns E / 100 < 2 ^ 20).
  { split; [apply Z.div_pos; lia|]. apply Z.div_lt_upper_bound; lia. }
  unfold on_progress, display_progress_bar, progress_text.
  rewrite Z.sub_0_r, Hbw.
  set (W := 55 * terminal_columns E / 100) in *. clearbody W.
  set (t := filesize stream) in *. clearbody t.
  unfold ebind at 1.
  rewrite (bar_filled_full W t Ht HW). unfold ebind at 1.
  rewrite (bar_percent_full t Ht). unfold ebind at 1.
  replace (Float.repr (tenths 1000)) with "100.0" by (vm_compute; reflexivity).
  reflexivity.
Qed.


(** X16.  With the default scale 0.55 the bar is [floor(0.55 * columns)]
    characters wide, for every terminal width below 2^32: the float product
    of line 66 never lands on the wrong side of an integer. *)
Theorem bar_width_is_floor (columns : Z) :
  0 <= columns < 2 ^ 32 ->
  bar_width columns default_scale = inr (55 * columns / 100).
Proof. apply bar_width_floor. Qed.

Lemma bar_width_is_floor_witness :
  bar_width 80 default_scale = inr (55 * 80 / 100).
Proof. apply (bar_width_is_floor 80). vm_compute. split; [discriminate|reflexivity]. Defined.

Lemma on_progress_at_completion_witness :
  on_progress (Examples.env_of Examples.mp4_catalog 80) Examples.v137 0
    Examples.empty_world
  = (inr tt, mkWorld ∅ [Stdout (progress_line 44 44 "100.0")]).
Proof.
  apply (on_progress_at_completion (Examples.env_of Examples.mp4_catalog 80)
           Examples.v137 Examples.empty_world);
    vm_compute; split; (reflexivity || discriminate).
Defined.

